(** * PBFT consensus core (consensus/pbft/core): a shallow embedding

    The Go package [core] drives one replica of a three-phase PBFT
    exchange.  This development embeds [core.go] (constructor, view
    arithmetic, proposal construction, the commit procedure and
    [setState]) as state-passing Rocq functions and proves the properties
    the specification states about them.  The parts of the package that
    [core.go] calls or that its tests exercise, but whose code is not
    among the sources (the backlog drain, the verification and handling
    of PREPARE and COMMIT), are modelled from the specification and
    marked as such.

    Conventions of the embedding:
    - a [*big.Int] is a nullable location in a store of integers
      ([bigptr], [heap]); [new(big.Int)] allocates, [x.Add(a, b)] writes
      to the receiver;
    - the other pointers of the package ([*pbft.Log], [*pbft.Preprepare],
      [*pbft.Proposal], [*pbft.View], [*pbft.Subject], [*pbft.Request])
      are nullable values ([option]); dereferencing [nil] panics;
    - a method of [*core] is a computation of the monad [go], which
      threads the receiver and the outside world and may panic;
    - calls that leave the core (backend calls, the backlog drain, posted
      events) and the assignments to [c.state] are recorded, in order, in
      the [trace] of the world. *)

From Stdlib Require Import ZArith List Lia Bool.
From Stdlib Require Import Floats.SpecFloat.
From stdpp Require Import base option list gmap sorting vector.

Local Open Scope Z_scope.

(** ** Package [pbft]: the data the core handles *)

Definition Address := N.             (* common.Address *)
Definition bytes := list Byte.byte.  (* []byte *)

Abbreviation loc := nat (only parsing).
Abbreviation bigptr := (option nat) (only parsing).  (* *big.Int; [None] is nil *)
Abbreviation heap := (list Z) (only parsing).        (* the big.Int cells allocated so far *)

(** The integer a [*big.Int] points to; [None] for the nil pointer. *)
Definition load (h : heap) (p : bigptr) : option Z :=
  match p with
  | None => None
  | Some l => Some (default 0 (h !! l))
  end.

(** A pointer of the program: nil, or a cell that has been allocated. *)
Definition valid (h : heap) (p : bigptr) : Prop :=
  match p with
  | None => True
  | Some l => (l < length h)%nat
  end.

(** [new(big.Int)] followed by a store of [z]: a location no pointer
    allocated before is equal to. *)
Definition alloc (h : heap) (z : Z) : loc * heap := (length h, h ++ [z]).

Record View := {
  View_ViewNumber : bigptr;
  View_Sequence : bigptr
}.

Record Subject := {
  Subject_View : option View;
  Subject_Digest : bytes
}.

Record ProposalHeader := {
  Header_Sequence : bigptr;
  Header_ParentHash : bytes;
  Header_DataHash : bytes
}.

Record Proposal := {
  Proposal_Header : option ProposalHeader;
  Proposal_Payload : bytes
}.

Record Request := { Request_Payload : bytes }.

Record Preprepare := {
  Preprepare_View : option View;
  Preprepare_Proposal : option Proposal
}.

(** Modelled from the spec: pbft.Log, the per-sequence record, whose
    declaration is missing from the sources (§3 "PerSequenceLog").  The
    fields are the ones [core.go] and [commit_test.go] select
    ([ViewNumber], [Sequence], [Preprepare], [Prepares.Size()],
    [Commits.Size()]); the two vote sets hold one entry per sender. *)
Record Log := {
  Log_ViewNumber : bigptr;
  Log_Sequence : bigptr;
  Log_Preprepare : option Preprepare;
  Log_Prepares : gset Address;
  Log_Commits : gset Address
}.

Inductive MsgCode := msgPreprepare | msgPrepare | msgCommit.

Inductive msgBody :=
| BodyPreprepare (p : Preprepare)
| BodySubject (s : Subject).

Record message := {
  message_Code : MsgCode;
  message_Msg : msgBody;
  message_Address : Address
}.

(** Modelled from the spec: pbft.ValidatorSet, whose declaration is
    missing from the sources (§3, §4.6: a finite set of validators with
    a size and a lookup by address). *)
Record ValidatorSet := {
  ValidatorSet_Size : Z;
  ValidatorSet_has : Address -> bool
}.

(** Modelled from the spec: pbft.Backend, the host interface, whose
    declaration is missing from the sources (§4.6).  [core.go] calls
    [Address], [Validators], [IsProposer], [Hash] and [Commit];
    [Backend_Hash] is the host's deterministic hash of a payload (§3),
    and [Backend_Commit p] is the outcome of handing [p] to the host
    ("may reject"): [true] when the host accepts, [false] when it
    rejects. *)
Record Backend := {
  Backend_Address : Address;
  Backend_Validators : ValidatorSet;
  Backend_IsProposer : bool;
  Backend_Hash : bytes -> bytes;
  Backend_Commit : option Proposal -> bool
}.

(** ** Package [core] *)

Inductive State :=
| StateAcceptRequest
| StatePreprepared
| StatePrepared
| StateCommitted
| StateCheckpointReady.

#[global] Instance State_eq_dec : EqDecision State.
Proof. solve_decision. Defined.

#[global] Instance MsgCode_eq_dec : EqDecision MsgCode.
Proof. solve_decision. Defined.

Record core := {
  address : Address;
  coreN : Z;
  coreF : Z;
  state : State;
  backend : Backend;
  sequence : bigptr;
  viewNumber : bigptr;
  completed : bool;
  subject : option Subject;
  backlogs : gmap Address (list message);
  current : option Log;
  consensusLogs : list Log
}.

(** What the core does to its surroundings, in program order. *)
Inductive effect :=
| EffSubscribe                               (* backend.EventMux().Subscribe(...) *)
| EffTransition (from to : State)            (* c.state = to, in setState *)
| EffProcessBacklog                          (* c.processBacklog() is entered *)
| EffPost (src : Address) (m : message)      (* a backlogEvent is posted *)
| EffCommit (p : option Proposal) (at_state : State) (accepted : bool)
                                             (* c.backend.Commit(p), with c.state at the call *)
| EffBroadcast (code : MsgCode) (s : option Subject).

Record world := {
  the_heap : heap;
  trace : list effect
}.

Definition config : Type := core * world.

(** The monad of core methods: receiver and world in, result or panic out. *)
Definition go (A : Type) : Type := config -> option (A * config).

#[global] Instance go_ret : MRet go := fun A x s => Some (x, s).
#[global] Instance go_bind : MBind go := fun A B f m s =>
  match m s with
  | None => None
  | Some (x, s') => f x s'
  end.

Definition panic {A} : go A := fun _ => None.
Definition self : go core := fun s => Some (fst s, s).
Definition update (f : core -> core) : go unit := fun s => Some (tt, (f (fst s), snd s)).
Definition emit (e : effect) : go unit := fun s =>
  Some (tt, (fst s, {| the_heap := the_heap (snd s); trace := trace (snd s) ++ [e] |})).
Definition deref {A} (p : option A) : go A :=
  match p with
  | None => panic
  | Some x => mret x
  end.
Definition store : go heap := fun s => Some (the_heap (snd s), s).

(** [new(big.Int).Add(x, y)]: both operands are dereferenced, the sum is
    written to a fresh cell. *)
Definition bigNewAdd (x : bigptr) (y : Z) : go bigptr := fun s =>
  match load (the_heap (snd s)) x with
  | None => None
  | Some z =>
      let '(l, h') := alloc (the_heap (snd s)) (z + y) in
      Some (Some l, (fst s, {| the_heap := h'; trace := trace (snd s) |}))
  end.

Definition set_state (st : State) (c : core) : core :=
  Build_core (address c) (coreN c) (coreF c) st (backend c) (sequence c)
    (viewNumber c) (completed c) (subject c) (backlogs c) (current c)
    (consensusLogs c).

Definition set_backlogs (b : gmap Address (list message)) (c : core) : core :=
  Build_core (address c) (coreN c) (coreF c) (state c) (backend c) (sequence c)
    (viewNumber c) (completed c) (subject c) b (current c) (consensusLogs c).

Definition set_consensusLogs (l : list Log) (c : core) : core :=
  Build_core (address c) (coreN c) (coreF c) (state c) (backend c) (sequence c)
    (viewNumber c) (completed c) (subject c) (backlogs c) (current c) l.

Definition set_viewNumber (p : bigptr) (c : core) : core :=
  Build_core (address c) (coreN c) (coreF c) (state c) (backend c) (sequence c)
    p (completed c) (subject c) (backlogs c) (current c) (consensusLogs c).

Definition set_sequence (p : bigptr) (c : core) : core :=
  Build_core (address c) (coreN c) (coreF c) (state c) (backend c) p
    (viewNumber c) (completed c) (subject c) (backlogs c) (current c)
    (consensusLogs c).

Definition set_completed (b : bool) (c : core) : core :=
  Build_core (address c) (coreN c) (coreF c) (state c) (backend c) (sequence c)
    (viewNumber c) b (subject c) (backlogs c) (current c) (consensusLogs c).

Definition set_subject (s : option Subject) (c : core) : core :=
  Build_core (address c) (coreN c) (coreF c) (state c) (backend c) (sequence c)
    (viewNumber c) (completed c) s (backlogs c) (current c) (consensusLogs c).

Definition set_current (l : option Log) (c : core) : core :=
  Build_core (address c) (coreN c) (coreF c) (state c) (backend c) (sequence c)
    (viewNumber c) (completed c) (subject c) (backlogs c) l (consensusLogs c).

(** ** Machine arithmetic used by the constructor *)

(** Two's-complement wrap of a conversion to [int64]. *)
Definition int64 (z : Z) : Z := (z + 2 ^ 63) mod 2 ^ 64 - 2 ^ 63.

(** IEEE 754 binary64, on the Standard Library's reference
    implementation [SpecFloat] (53 bits of precision, [emax = 1024]). *)
Definition float64 := spec_float.

(** [float64(n)] for an integer [n]: round to nearest, ties to even. *)
Definition float64_of_int (n : Z) : float64 := binary_normalize 53 1024 n 0 false.

Definition float64_div : float64 -> float64 -> float64 := SFdiv 53 1024.
Definition float64_sub : float64 -> float64 -> float64 := SFsub 53 1024.

(** [math.Ceil]: the least integral value not below [x]; zeros,
    infinities and NaN are returned as they are, and a result of zero
    keeps the sign of [x]. *)
Definition math_Ceil (x : float64) : float64 :=
  match x with
  | S754_finite s m e =>
      if 0 <=? e then x
      else
        let q := - ((- cond_Zopp s (Zpos m)) / 2 ^ (- e)) in
        if q =? 0 then S754_zero s else binary_normalize 53 1024 q 0 s
  | _ => x
  end.

(** [int64(x)] for a float [x]: the fraction is discarded; a value that
    does not fit (or NaN) yields the "integer indefinite" value of the
    amd64 conversion instruction. *)
Definition int64_of_float64 (x : float64) : Z :=
  match x with
  | S754_zero _ => 0
  | S754_finite s m e =>
      let t := cond_Zopp s (if 0 <=? e then Zpos m * 2 ^ e else Zpos m / 2 ^ (- e)) in
      if (- 2 ^ 63 <=? t) && (t <? 2 ^ 63) then t else - 2 ^ 63
  | _ => - 2 ^ 63
  end.

(** [int64(math.Ceil(float64(n)/3) - 1)], the fault bound computed by [New]. *)
Definition computeF (n : Z) : Z :=
  int64_of_float64
    (float64_sub
       (math_Ceil (float64_div (float64_of_int n) (float64_of_int 3)))
       (float64_of_int 1)).

(** ** [core.go] *)

(** [New]: the struct literal is evaluated field by field, so the cell of
    [sequence] is allocated before the cell of [viewNumber], and the
    event subscription is made after both.  The zero values of the
    fields the literal leaves out are [false], [nil] and the empty
    slice. *)
Definition New (backend : Backend) (w : world) : config :=
  let n := int64 (ValidatorSet_Size (Backend_Validators backend)) in
  let f := computeF n in
  let '(lseq, h1) := alloc (the_heap w) 0 in
  let '(lview, h2) := alloc h1 0 in
  ({| address := Backend_Address backend;
      coreN := n;
      coreF := f;
      state := StateAcceptRequest;
      backend := backend;
      sequence := Some lseq;
      viewNumber := Some lview;
      completed := false;
      subject := None;
      backlogs := ∅;
      current := None;
      consensusLogs := [] |},
   {| the_heap := h2; trace := trace w ++ [EffSubscribe] |}).

Definition nextSequence : go View :=
  c ← self;
  s ← bigNewAdd (sequence c) 1;
  mret {| View_ViewNumber := viewNumber c; View_Sequence := s |}.

Definition nextViewNumber : go View :=
  c ← self;
  v ← bigNewAdd (viewNumber c) 1;
  mret {| View_ViewNumber := v; View_Sequence := sequence c |}.

Definition isPrimary : go bool :=
  c ← self;
  mret (Backend_IsProposer (backend c)).

Definition makeProposal (seq : bigptr) (request : option Request) : go Proposal :=
  c ← self;
  r ← deref request;
  let header := {| Header_Sequence := seq;
                   Header_ParentHash := Backend_Hash (backend c) (Request_Payload r);
                   Header_DataHash := Backend_Hash (backend c) (Request_Payload r) |} in
  mret {| Proposal_Header := Some header; Proposal_Payload := Request_Payload r |}.

(** *** Views of messages against the local view *)

Definition msg_view (m : message) : option View :=
  match message_Msg m with
  | BodyPreprepare p => Preprepare_View p
  | BodySubject s => Subject_View s
  end.

(** Modelled from the spec: the comparison of a message view with the
    local [(view_number, sequence)] (§3: lexicographic, view number
    first).  A view with an absent part is neither ahead of nor behind
    the local one. *)
Definition viewCmp (h : heap) (mv : option View) (lview lseq : option Z) : comparison :=
  match mv with
  | None => Eq
  | Some v =>
      match load h (View_ViewNumber v), load h (View_Sequence v), lview, lseq with
      | Some a, Some b, Some a', Some b' =>
          match a ?= a' with
          | Eq => b ?= b'
          | o => o
          end
      | _, _, _, _ => Eq
      end
  end.

Section Core.

(** Which message codes a state admits.  The drain of §4.2 uses the
    notion; neither the sources nor the specification define it,
    so it is a parameter of the development. *)
Variable admissible : State -> MsgCode -> bool.

(** Modelled from the spec: the drain of one peer's queue, part of
    [processBacklog], which is missing from the sources (§4.2: entries
    strictly in the past are discarded; entries no longer in the future
    whose code the state admits are popped and re-injected as backlog
    events; the others stay queued). *)
Fixpoint drainQueue (h : heap) (lview lseq : option Z) (st : State)
    (src : Address) (q : list message) : list message * list effect :=
  match q with
  | [] => ([], [])
  | m :: q' =>
      let '(keep, posts) := drainQueue h lview lseq st src q' in
      match viewCmp h (msg_view m) lview lseq with
      | Lt => (keep, posts)
      | Gt => (m :: keep, posts)
      | Eq =>
          if admissible st (message_Code m)
          then (keep, EffPost src m :: posts)
          else (m :: keep, posts)
      end
  end.

(** Modelled from the spec: one pass of the drain over the peers, in the
    given order of addresses. *)
Fixpoint drainPeers (h : heap) (lview lseq : option Z) (st : State)
    (srcs : list Address) (b : gmap Address (list message))
    : gmap Address (list message) * list effect :=
  match srcs with
  | [] => (b, [])
  | src :: rest =>
      let '(keep, posts) := drainQueue h lview lseq st src (default [] (b !! src)) in
      let '(b', posts') := drainPeers h lview lseq st rest (<[src := keep]> b) in
      (b', posts ++ posts')
  end.

(** Modelled from the spec: [processBacklog], the method [setState] calls
    and which is missing from the sources (§4.2, §4.4 "On each
    transition, drain_backlog runs").  It walks the peers in address
    order, rewrites [c.backlogs] and posts the re-injected messages to
    the event queue; it touches no other field of the core. *)
Definition processBacklog : go unit := fun s =>
  let c := fst s in
  let w := snd s in
  let h := the_heap w in
  let srcs := merge_sort N.le (elements (dom (backlogs c))) in
  let '(b', posts) :=
    drainPeers h (load h (viewNumber c)) (load h (sequence c)) (state c)
      srcs (backlogs c) in
  Some (tt, (set_backlogs b' c,
             {| the_heap := h; trace := trace w ++ EffProcessBacklog :: posts |})).

Definition setState (st : State) : go unit :=
  c ← self;
  if decide (state c ≠ st) then
    update (set_state st);;
    emit (EffTransition (state c) st);;
    processBacklog
  else mret tt.

(** [commit]: the values [c.current] and [c.current.Preprepare] are first
    dereferenced by the arguments of [logger.Debug]; no statement of the
    method assigns [c.current], so the later reads see the same log.  The
    result of [c.backend.Commit] is not bound to anything. *)
Definition commit : go unit :=
  setState StateCommitted;;
  c ← self;
  cur ← deref (current c);
  pp ← deref (Log_Preprepare cur);
  emit (EffCommit (Preprepare_Proposal pp) (state c)
          (Backend_Commit (backend c) (Preprepare_Proposal pp)));;
  update (fun c => set_consensusLogs (consensusLogs c ++ [cur]) c);;
  update (set_viewNumber (Log_ViewNumber cur));;
  update (set_sequence (Log_Sequence cur));;
  update (set_completed true);;
  setState StateAcceptRequest.

(** *** Message handling

    The handlers of PREPARE and COMMIT are not part of the sources at
    hand; only their test is.  They are modelled from §4.4 of the
    specification, where [local.view] is read as the pair
    [(c.viewNumber, c.sequence)] of the core. *)

Inductive error :=
| errFutureMessage
| errOldMessage
| ErrSubjectNotMatched
| errUnauthorizedSender
| errDecode.

(** Modelled from the spec: the comparison of subjects (§3: all three
    fields equal, an absent inner field never equal to a present one).
    First for two [*big.Int]: both nil, or both present with the same
    value. *)
Definition bigEqual (h : heap) (p q : bigptr) : bool :=
  match p, q with
  | None, None => true
  | Some a, Some b => default 0 (h !! a) =? default 0 (h !! b)
  | _, _ => false
  end.

Definition viewEqual (h : heap) (v w : option View) : bool :=
  match v, w with
  | None, None => true
  | Some v, Some w =>
      bigEqual h (View_ViewNumber v) (View_ViewNumber w)
      && bigEqual h (View_Sequence v) (View_Sequence w)
  | _, _ => false
  end.

Fixpoint bytesEqual (a b : bytes) : bool :=
  match a, b with
  | [], [] => true
  | x :: a', y :: b' => Byte.eqb x y && bytesEqual a' b'
  | _, _ => false
  end.

Definition subjectEqual (h : heap) (a b : option Subject) : bool :=
  match a, b with
  | None, None => true
  | Some a, Some b =>
      viewEqual h (Subject_View a) (Subject_View b)
      && bytesEqual (Subject_Digest a) (Subject_Digest b)
  | _, _ => false
  end.

(** Modelled from the spec: [verifyCommit], missing from the sources
    (§4.4, preamble step 4: "Compare against local.subject. If not
    equal, return SubjectNotMatched", with the comparison of §3: all
    three fields equal, an absent inner field never equal to a present
    one). *)
Definition verifyCommit (commit : option Subject) (src : Address) : go (option error) :=
  c ← self;
  h ← store;
  if subjectEqual h commit (subject c) then mret None
  else mret (Some ErrSubjectNotMatched).

(** Modelled from the spec: [verifyPrepare], missing from the sources;
    the same comparison, for a PREPARE. *)
Definition verifyPrepare (prepare : option Subject) (src : Address) : go (option error) :=
  c ← self;
  h ← store;
  if subjectEqual h prepare (subject c) then mret None
  else mret (Some ErrSubjectNotMatched).

Definition code_rank (code : MsgCode) : Z :=
  match code with
  | msgPreprepare => 0
  | msgPrepare => 1
  | msgCommit => 2
  end.

(** Modelled from the spec: the order of a peer's queue (§4.2:
    [(view_number, sequence, code_rank)] ascending, with
    PRE_PREPARE < PREPARE < COMMIT). *)
Definition prioLe (h : heap) (m1 m2 : message) : bool :=
  let key m :=
    match msg_view m with
    | Some v => (default 0 (load h (View_ViewNumber v)),
                 default 0 (load h (View_Sequence v)))
    | None => (0, 0)
    end in
  let '(a1, b1) := key m1 in
  let '(a2, b2) := key m2 in
  (a1 <? a2)
  || ((a1 =? a2)
      && ((b1 <? b2)
          || ((b1 =? b2) && (code_rank (message_Code m1) <=? code_rank (message_Code m2))))).

Fixpoint pushBacklog (h : heap) (m : message) (q : list message) : list message :=
  match q with
  | [] => [m]
  | x :: q' => if prioLe h x m then x :: pushBacklog h m q' else m :: q
  end.

(** Modelled from the spec: [defer] of §4.2, a push on the sender's queue. *)
Definition defer (m : message) : go unit :=
  h ← store;
  update (fun c =>
    set_backlogs
      (<[message_Address m := pushBacklog h m (default [] (backlogs c !! message_Address m))]>
         (backlogs c)) c).

(** Modelled from the spec: steps 2 and 3 of the common preamble of
    §4.4 (a message ahead of the local view is deferred, one behind it is
    dropped, and the sender must be a validator). *)
Definition checkMessage (m : message) (view : option View) : go (option error) :=
  c ← self;
  h ← store;
  match viewCmp h view (load h (viewNumber c)) (load h (sequence c)) with
  | Gt => defer m;; mret (Some errFutureMessage)
  | Lt => mret (Some errOldMessage)
  | Eq =>
      if ValidatorSet_has (Backend_Validators (backend c)) (message_Address m)
      then mret None
      else mret (Some errUnauthorizedSender)
  end.

Definition add_prepare (a : Address) (l : Log) : Log :=
  {| Log_ViewNumber := Log_ViewNumber l; Log_Sequence := Log_Sequence l;
     Log_Preprepare := Log_Preprepare l;
     Log_Prepares := {[a]} ∪ Log_Prepares l; Log_Commits := Log_Commits l |}.

Definition add_commit (a : Address) (l : Log) : Log :=
  {| Log_ViewNumber := Log_ViewNumber l; Log_Sequence := Log_Sequence l;
     Log_Preprepare := Log_Preprepare l;
     Log_Prepares := Log_Prepares l; Log_Commits := {[a]} ∪ Log_Commits l |}.

(** Modelled from the spec: [handlePrepare], missing from the sources
    (§4.4 "PREPARE handling": after the preamble, the sender joins
    [current.prepares]; with [2F + 1] prepares in state PREPREPARED, or
    in ACCEPT_REQUEST with the subject set, the core moves to PREPARED
    and broadcasts COMMIT over its subject). *)
Definition handlePrepare (m : message) : go (option error) :=
  match message_Msg m with
  | BodyPreprepare _ => mret (Some errDecode)
  | BodySubject s =>
      r ← checkMessage m (Subject_View s);
      match r with
      | Some e => mret (Some e)
      | None =>
          r ← verifyPrepare (Some s) (message_Address m);
          match r with
          | Some e => mret (Some e)
          | None =>
              c ← self;
              cur ← deref (current c);
              update (set_current (Some (add_prepare (message_Address m) cur)));;
              c ← self;
              cur ← deref (current c);
              (if (2 * coreF c + 1 <=? Z.of_nat (size (Log_Prepares cur)))
                  && (bool_decide (state c = StatePreprepared)
                      || (bool_decide (state c = StateAcceptRequest)
                          && bool_decide (is_Some (subject c))))
               then setState StatePrepared;;
                    emit (EffBroadcast msgCommit (subject c))
               else mret tt);;
              mret None
          end
      end
  end.

(** Modelled from the spec: [handleCommit], missing from the sources
    (§4.4 "COMMIT handling": after the preamble, the sender joins
    [current.commits]; with [2F + 1] commits in state PREPARED the commit
    procedure runs). *)
Definition handleCommit (m : message) : go (option error) :=
  match message_Msg m with
  | BodyPreprepare _ => mret (Some errDecode)
  | BodySubject s =>
      r ← checkMessage m (Subject_View s);
      match r with
      | Some e => mret (Some e)
      | None =>
          r ← verifyCommit (Some s) (message_Address m);
          match r with
          | Some e => mret (Some e)
          | None =>
              c ← self;
              cur ← deref (current c);
              update (set_current (Some (add_commit (message_Address m) cur)));;
              c ← self;
              cur ← deref (current c);
              (if (2 * coreF c + 1 <=? Z.of_nat (size (Log_Commits cur)))
                  && bool_decide (state c = StatePrepared)
               then commit
               else mret tt);;
              mret None
          end
      end
  end.

(** A vote handed to the replica, as the tests do: the caller picks the
    handler. *)
Inductive vote :=
| Prepare (m : message)
| Commit (m : message).

Definition feed (v : vote) : go (option error) :=
  match v with
  | Prepare m => handlePrepare m
  | Commit m => handleCommit m
  end.

(** The steps of a replica fed the votes [vs] in that order, each with
    the configuration before and after; a panic ends the run. *)
Fixpoint steps (s : config) (vs : list vote) : list (config * vote * config) :=
  match vs with
  | [] => []
  | v :: vs' =>
      match feed v s with
      | None => []
      | Some (_, s') => (s, v, s') :: steps s' vs'
      end
  end.

End Core.

(** ** Observations on traces and configurations, and the data of the examples *)

(** Kinds of events. *)
Definition is_post (e : effect) : bool :=
  match e with EffPost _ _ => true | _ => false end.


Definition is_host_commit (e : effect) : bool :=
  match e with EffCommit _ _ _ => true | _ => false end.

(** Four validators, addresses 0 to 3, so that [F = 1]; a host that
    accepts or rejects every proposal. *)
Definition demoValidators : ValidatorSet :=
  {| ValidatorSet_Size := 4; ValidatorSet_has := fun a => (a <? 4)%N |}.

Definition demoHost (accepts : bool) : Backend :=
  {| Backend_Address := 0%N;
     Backend_Validators := demoValidators;
     Backend_IsProposer := true;
     Backend_Hash := fun b => Byte.xff :: b;
     Backend_Commit := fun _ => accepts |}.

Definition demoAdmissible (st : State) (code : MsgCode) : bool :=
  match code with
  | msgPreprepare => bool_decide (st = StateAcceptRequest)
  | _ => true
  end.

(** Two cells allocated before the core is built: cell 0 holds 0 and
    cell 1 holds 1. *)
Definition demoWorld : world := {| the_heap := [0; 1]; trace := [] |}.

Definition demoProposal : Proposal :=
  {| Proposal_Header :=
       Some {| Header_Sequence := Some 1%nat;
               Header_ParentHash := [Byte.xff; Byte.x01];
               Header_DataHash := [Byte.xff; Byte.x01] |};
     Proposal_Payload := [Byte.x01] |}.

Definition demoPreprepare : Preprepare :=
  {| Preprepare_View :=
       Some {| View_ViewNumber := Some 0%nat; View_Sequence := Some 1%nat |};
     Preprepare_Proposal := Some demoProposal |}.

(** A log at view (0, 1) that holds a pre-prepare. *)
Definition demoLog : Log :=
  {| Log_ViewNumber := Some 0%nat;
     Log_Sequence := Some 1%nat;
     Log_Preprepare := Some demoPreprepare;
     Log_Prepares := ∅;
     Log_Commits := ∅ |}.

(** A freshly built replica that has reached PREPARED on [demoLog]. *)
Definition demoConfig (accepts : bool) : config :=
  let '(c, w) := New (demoHost accepts) demoWorld in
  (set_current (Some demoLog) (set_state StatePrepared c), w).

(** The three fields of a subject as the comparison reads them: the two
    integers of the view, each absent ([None]) or present, and the digest;
    the outer [None] stands for a subject without a view. *)
Definition subject_fields (h : heap) (s : Subject)
    : option (option Z * option Z) * bytes :=
  (match Subject_View s with
   | None => None
   | Some v => Some (load h (View_ViewNumber v), load h (View_Sequence v))
   end,
   Subject_Digest s).

(** The subjects of [TestVerifyCommit], over the cells of [demoWorld]. *)
Definition subjectAt (vn sq : option nat) : Subject :=
  {| Subject_View := Some {| View_ViewNumber := vn; View_Sequence := sq |};
     Subject_Digest := [Byte.x01] |}.

(** The events a step appends to the trace. *)
Definition new_events (before after : config) : list effect :=
  drop (length (trace before.2)) (trace after.2).

(** The numbers of prepares and of commits recorded in the current log. *)
Definition prepares_of (s : config) : Z :=
  match current s.1 with
  | Some l => Z.of_nat (size (Log_Prepares l))
  | None => 0
  end.

Definition commits_of (s : config) : Z :=
  match current s.1 with
  | Some l => Z.of_nat (size (Log_Commits l))
  | None => 0
  end.

(** What the quorum rule asks of one step of a replica: a move into
    PREPARED comes with [2F + 1] recorded prepares, a move into COMMITTED
    with [2F + 1] recorded commits, and a vote that leaves at most [2F]
    votes of its kind recorded leaves the state as it was. *)
Definition quorum_witnessed (step : config * vote * config) : Prop :=
  let '(before, v, after) := step in
  let F := coreF before.1 in
  (forall from, EffTransition from StatePrepared ∈ new_events before after ->
                2 * F + 1 <= prepares_of after)
  /\ (forall from, EffTransition from StateCommitted ∈ new_events before after ->
                   2 * F + 1 <= commits_of after)
  /\ (match v with
      | Prepare _ => prepares_of after <= 2 * F
      | Commit _ => commits_of after <= 2 * F
      end -> state after.1 = state before.1 /\ new_events before after = [])
  /\ coreF after.1 = F.

(** A replica in PREPREPARED whose subject is at view (0, 0), and votes
    of validators 0, 1 and 2 over that subject. *)
Definition demoVoting : config :=
  let '(c, w) := demoConfig true in
  (set_subject (Some (subjectAt (Some 0%nat) (Some 0%nat)))
     (set_state StatePreprepared c), w).

Definition demoVote (code : MsgCode) (a : Address) : message :=
  {| message_Code := code;
     message_Msg := BodySubject (subjectAt (Some 0%nat) (Some 0%nat));
     message_Address := a |}.

Definition demoVotes : list vote :=
  [Prepare (demoVote msgPrepare 0%N); Prepare (demoVote msgPrepare 1%N);
   Prepare (demoVote msgPrepare 1%N); Prepare (demoVote msgPrepare 2%N);
   Commit (demoVote msgCommit 0%N); Commit (demoVote msgCommit 1%N);
   Commit (demoVote msgCommit 2%N)].

(** The validators recorded as having prepared, and as having committed,
    in the current log. *)
Definition prepare_voters (s : config) : gset Address :=
  match current s.1 with
  | Some l => Log_Prepares l
  | None => ∅
  end.

Definition commit_voters (s : config) : gset Address :=
  match current s.1 with
  | Some l => Log_Commits l
  | None => ∅
  end.

(** A vote matches when its subject passes the comparison with the local
    subject, in the store [h]. *)
Definition vote_matches (h : heap) (local : option Subject) (m : message) : bool :=
  match message_Msg m with
  | BodySubject s => subjectEqual h (Some s) local
  | BodyPreprepare _ => false
  end.

Definition matching_sender (h : heap) (local : option Subject) (m : message)
    : gset Address :=
  if vote_matches h local m then {[message_Address m]} else ∅.

(** The senders of the matching PREPAREs, and of the matching COMMITs,
    among the votes [vs]. *)
Fixpoint matching_prepares (h : heap) (local : option Subject) (vs : list vote)
    : gset Address :=
  match vs with
  | [] => ∅
  | Prepare m :: vs' => matching_sender h local m ∪ matching_prepares h local vs'
  | Commit _ :: vs' => matching_prepares h local vs'
  end.

Fixpoint matching_commits (h : heap) (local : option Subject) (vs : list vote)
    : gset Address :=
  match vs with
  | [] => ∅
  | Prepare _ :: vs' => matching_commits h local vs'
  | Commit m :: vs' => matching_sender h local m ∪ matching_commits h local vs'
  end.

(** What one step may record: the local subject and the store stay as
    they are, and the only validator a vote can add to the record of its
    kind is its sender, and only when the vote matches. *)
Definition only_matching_recorded (step : config * vote * config) : Prop :=
  let '(before, v, after) := step in
  let h := the_heap before.2 in
  let local := subject before.1 in
  subject after.1 = local
  /\ the_heap after.2 = h
  /\ prepare_voters after ⊆ prepare_voters before ∪ matching_prepares h local [v]
  /\ commit_voters after ⊆ commit_voters before ∪ matching_commits h local [v].

(** Votes over the subject of [demoVoting] with another digest. *)
Definition demoWrongVote (code : MsgCode) (a : Address) : message :=
  {| message_Code := code;
     message_Msg :=
       BodySubject
         {| Subject_View :=
              Some {| View_ViewNumber := Some 0%nat; View_Sequence := Some 0%nat |};
            Subject_Digest := [Byte.x02] |};
     message_Address := a |}.

(** Three PREPAREs and three COMMITs that do not match, and two of each
    that do. *)
Definition demoMismatched : list vote :=
  [Prepare (demoWrongVote msgPrepare 0%N); Prepare (demoWrongVote msgPrepare 1%N);
   Prepare (demoWrongVote msgPrepare 2%N);
   Prepare (demoVote msgPrepare 0%N); Prepare (demoVote msgPrepare 1%N);
   Commit (demoWrongVote msgCommit 0%N); Commit (demoWrongVote msgCommit 1%N);
   Commit (demoWrongVote msgCommit 2%N);
   Commit (demoVote msgCommit 0%N); Commit (demoVote msgCommit 1%N)].








(** Where the exact quotient by 3 lies between two consecutive integers,
    from the remainder [t]: on the lower one, below or above the middle. *)
Definition third_loc (t : Z) : location :=
  if t =? 0 then loc_Exact
  else if t =? 1 then loc_Inexact Lt else loc_Inexact Gt.

(** The ceiling of [n / 3] ([Z.div] rounds down). *)
Definition ceil_third (n : Z) : Z := - (- n / 3).

(** A host whose validator set reports a size just above [2^53]. *)
Definition hugeHost : Backend :=
  {| Backend_Address := 0%N;
     Backend_Validators :=
       {| ValidatorSet_Size := 9007199254740999; ValidatorSet_has := fun _ => true |};
     Backend_IsProposer := true;
     Backend_Hash := fun b => b;
     Backend_Commit := fun _ => true |}.

(** ** The test of the verification ([commit_test.go])

    [TestVerifyCommit] builds its four cases, then for each of them sets
    [c.subject] to the [self] of the case, calls [c.verifyCommit] on its
    [commit], and reports an error when the result is not nil and
    differs from the expected one.  The core is the engine of a test
    system that is built outside the sources; it is the core of the
    configuration the test is run on. *)

#[global] Instance error_eq_dec : EqDecision error.
Proof. solve_decision. Defined.

(** [big.NewInt(z)]: a fresh cell that holds [z]. *)
Definition bigNewInt (z : Z) : go bigptr := fun s =>
  let '(l, h') := alloc (the_heap (snd s)) z in
  Some (Some l, (fst s, {| the_heap := h'; trace := trace (snd s) |})).

(** The integer of a case: [big.NewInt(z)], or [nil]. *)
Definition newBig (z : option Z) : go bigptr :=
  match z with
  | None => mret None
  | Some z => bigNewInt z
  end.

(** [&pbft.Subject{View: &pbft.View{ViewNumber: vn, Sequence: sq},
    Digest: []byte{1}}], the fields evaluated in the order written. *)
Definition newSubject (vn sq : option Z) : go (option Subject) :=
  v ← newBig vn;
  s ← newBig sq;
  mret (Some {| Subject_View := Some {| View_ViewNumber := v; View_Sequence := s |};
                Subject_Digest := [Byte.x01] |}).

Record verifyCase := {
  case_expected : option error;
  case_commit : option Subject;
  case_self : option Subject
}.

Definition newCase (expected : option error) (cvn csq svn ssq : option Z)
    : go verifyCase :=
  commit ← newSubject cvn csq;
  self' ← newSubject svn ssq;
  mret {| case_expected := expected; case_commit := commit; case_self := self' |}.

(** The slice [testCases] of [TestVerifyCommit]. *)
Definition testCases : go (list verifyCase) :=
  t0 ← newCase None (Some 0) (Some 0) (Some 0) (Some 0);
  t1 ← newCase (Some ErrSubjectNotMatched) (Some 0) None (Some 1) (Some 1);
  t2 ← newCase (Some ErrSubjectNotMatched) (Some 1) (Some 0) (Some 0) (Some 0);
  t3 ← newCase (Some ErrSubjectNotMatched) (Some 0) (Some 1) (Some 0) (Some 0);
  mret [t0; t1; t2; t3].

(** The body of the loop; the result tells whether [t.Errorf] is called. *)
Definition runVerifyCase (verify : option Subject -> Address -> go (option error))
    (peer : Address) (test : verifyCase) : go bool :=
  update (set_subject (case_self test));;
  err ← verify (case_commit test) peer;
  mret (match err with
        | None => false
        | Some e => bool_decide (Some e <> case_expected test)
        end).

(** The loop over the cases, from index [i]; the result lists the
    indices of the cases that call [t.Errorf]. *)
Fixpoint runVerifyCases (verify : option Subject -> Address -> go (option error))
    (peer : Address) (i : nat) (cases : list verifyCase) : go (list nat) :=
  match cases with
  | [] => mret []
  | test :: rest =>
      failed ← runVerifyCase verify peer test;
      others ← runVerifyCases verify peer (S i) rest;
      mret (if (failed : bool) then i :: others else others)
  end.

Definition TestVerifyCommit (verify : option Subject -> Address -> go (option error))
    (peer : Address) : go (list nat) :=
  cases ← testCases;
  runVerifyCases verify peer 0 cases.

(** A verification that reads the incoming subject, the local subject
    and the store, and changes nothing. *)
Definition readerVerify (f : list Z -> option Subject -> option Subject -> option error)
    (commit : option Subject) (src : Address) : go (option error) :=
  c ← self;
  h ← store;
  mret (f h commit (subject c)).

(** The store [h'] has every cell of [h], with the same content. *)
Definition extends (h h' : heap) : Prop :=
  forall p, valid h p -> valid h' p /\ load h' p = load h p.

(** The pointers of a subject are nil or allocated in [h]. *)
Definition valid_subject (h : heap) (s : Subject) : Prop :=
  match Subject_View s with
  | None => True
  | Some v => valid h (View_ViewNumber v) /\ valid h (View_Sequence v)
  end.

(** In the store [h], the case [t] expects [expected] and its [commit]
    and [self] are subjects of digest [1] whose views hold the given
    integers. *)
Definition case_reads (h : heap) (t : verifyCase) (expected : option error)
    (cvn csq svn ssq : option Z) : Prop :=
  case_expected t = expected
  /\ exists a b,
       case_commit t = Some a /\ case_self t = Some b
       /\ subject_fields h a = (Some (cvn, csq), [Byte.x01])
       /\ subject_fields h b = (Some (svn, ssq), [Byte.x01])
       /\ valid_subject h a /\ valid_subject h b.

(** ** Package [simple], helpers of its test (src/unnamed/part_000) *)

(** core.Genesis, of which [appendValidators] reads and writes the field
    [ExtraData] only. *)
Record Genesis := { Genesis_ExtraData : bytes }.

Section SimpleBackend.

(** The constants [extraVanity] and [extraSeal] of package [simple],
    lengths in bytes; their declarations are outside the sources. *)
Variables extraVanity extraSeal : nat.

(** [appendValidators]: a common.Address is an array of 20 bytes, and
    [addr[:]] is the list of its bytes.  Dereferencing a nil [genesis]
    panics.  After the first statement the slice has at least
    [extraVanity] bytes, so the slicing that follows is in range. *)
Definition appendValidators (genesis : option Genesis) (addrs : list (vec Byte.byte 20))
    : option Genesis :=
  match genesis with
  | None => None
  | Some g =>
      let e1 :=
        if bool_decide (length (Genesis_ExtraData g) < extraVanity)%nat
        then Genesis_ExtraData g ++ replicate extraVanity Byte.x00
        else Genesis_ExtraData g in
      let e2 := take extraVanity e1 in
      let e3 := foldl (fun e addr => e ++ vec_to_list addr) e2 addrs in
      Some {| Genesis_ExtraData := e3 ++ replicate extraSeal Byte.x00 |}
  end.

End SimpleBackend.

(** ** Properties of the backlog drain and of [setState] *)

Section Frame.

Variable admissible : State -> MsgCode -> bool.

Lemma drainQueue_posts h lv ls st src q :
  Forall (fun e => is_post e = true) (drainQueue admissible h lv ls st src q).2.
Proof.
  induction q as [|m q IH]; simpl; [constructor|].
  destruct (drainQueue admissible h lv ls st src q) as [keep posts]; simpl in *.
  destruct (viewCmp h (msg_view m) lv ls); simpl; auto.
  destruct (admissible st (message_Code m)); simpl; auto.
Qed.

Lemma drainPeers_posts h lv ls st srcs b :
  Forall (fun e => is_post e = true) (drainPeers admissible h lv ls st srcs b).2.
Proof.
  revert b; induction srcs as [|src srcs IH]; intros b; simpl; [constructor|].
  pose proof (drainQueue_posts h lv ls st src (default [] (b !! src))) as Hq.
  destruct (drainQueue admissible h lv ls st src (default [] (b !! src))) as [keep posts].
  specialize (IH (<[src:=keep]> b)).
  destruct (drainPeers admissible h lv ls st srcs (<[src:=keep]> b)) as [b' posts'].
  simpl in *. apply Forall_app; split; assumption.
Qed.

(** The drain rewrites the backlog and appends its marker and the posted
    events to the trace; nothing else changes. *)
Lemma processBacklog_run c w :
  exists b' posts,
    processBacklog admissible (c, w)
    = Some (tt, (set_backlogs b' c,
                 {| the_heap := the_heap w;
                    trace := trace w ++ EffProcessBacklog :: posts |}))
    /\ Forall (fun e => is_post e = true) posts.
Proof.
  unfold processBacklog; simpl.
  pose proof (drainPeers_posts (the_heap w) (load (the_heap w) (viewNumber c))
                (load (the_heap w) (sequence c)) (state c)
                (merge_sort N.le (elements (dom (backlogs c)))) (backlogs c)) as Hp.
  destruct (drainPeers _ _ _ _ _ _ _) as [b' posts]; simpl in Hp.
  exists b', posts; split; [reflexivity | exact Hp].
Qed.

Lemma setState_same st c w :
  state c = st -> setState admissible st (c, w) = Some (tt, (c, w)).
Proof.
  intros H. unfold setState, mbind, go_bind, self; simpl.
  destruct (decide (state c <> st)) as [Hne|_]; [contradiction | reflexivity].
Qed.

Lemma setState_change st c w :
  state c <> st ->
  exists b' posts,
    setState admissible st (c, w)
    = Some (tt, (set_backlogs b' (set_state st c),
                 {| the_heap := the_heap w;
                    trace := trace w ++ EffTransition (state c) st
                                        :: EffProcessBacklog :: posts |}))
    /\ Forall (fun e => is_post e = true) posts.
Proof.
  intros H. unfold setState, mbind, go_bind, self; simpl.
  destruct (decide (state c <> st)) as [_|Heq]; [|contradiction].
  unfold update, emit; simpl.
  destruct (processBacklog_run (set_state st c)
              {| the_heap := the_heap w;
                 trace := trace w ++ [EffTransition (state c) st] |})
    as (b' & posts & Hrun & Hposts).
  exists b', posts; split; [|exact Hposts].
  rewrite Hrun; simpl. rewrite <- app_assoc. reflexivity.
Qed.

(** What [setState] leaves behind, whichever branch it takes. *)
Lemma setState_run st c w :
  exists b' evs,
    setState admissible st (c, w)
    = Some (tt, (set_backlogs b' (set_state st c),
                 {| the_heap := the_heap w; trace := trace w ++ evs |}))
    /\ (state c = st -> evs = [] /\ b' = backlogs c)
    /\ (state c <> st ->
        exists posts, evs = EffTransition (state c) st :: EffProcessBacklog :: posts
                      /\ Forall (fun e => is_post e = true) posts).
Proof.
  destruct (decide (state c = st)) as [Heq|Hne].
  - exists (backlogs c), []. rewrite (setState_same st c w Heq).
    split; [|split]; [| auto | contradiction].
    subst st. destruct c, w; simpl. rewrite app_nil_r. reflexivity.
  - destruct (setState_change st c w Hne) as (b' & posts & Hrun & Hposts).
    exists b', (EffTransition (state c) st :: EffProcessBacklog :: posts).
    split; [exact Hrun|]. split; [contradiction | eauto].
Qed.

End Frame.

Section CommitProcedure.

Variable admissible : State -> MsgCode -> bool.

(** One run of the commit procedure on a core whose current log holds a
    pre-prepare: the resulting core, and the events it adds, in order. *)
Lemma commit_run c w cur pp :
  current c = Some cur ->
  Log_Preprepare cur = Some pp ->
  exists c' pre posts,
    commit admissible (c, w)
    = Some (tt, (c',
         {| the_heap := the_heap w;
            trace := trace w ++ pre
                     ++ EffCommit (Preprepare_Proposal pp) StateCommitted
                          (Backend_Commit (backend c) (Preprepare_Proposal pp))
                     :: EffTransition StateCommitted StateAcceptRequest
                     :: EffProcessBacklog :: posts |}))
    /\ state c' = StateAcceptRequest
    /\ viewNumber c' = Log_ViewNumber cur
    /\ sequence c' = Log_Sequence cur
    /\ completed c' = true
    /\ consensusLogs c' = consensusLogs c ++ [cur]
    /\ current c' = Some cur
    /\ backend c' = backend c
    /\ coreF c' = coreF c
    /\ subject c' = subject c
    /\ Forall (fun e => is_host_commit e = false) pre
    /\ Forall (fun e => is_post e = true) posts
    /\ (state c = StateCommitted -> pre = [])
    /\ (state c <> StateCommitted ->
        exists posts1, pre = EffTransition (state c) StateCommitted
                             :: EffProcessBacklog :: posts1
                       /\ Forall (fun e => is_post e = true) posts1).
Proof.
  intros Hcur Hpp.
  destruct (setState_run admissible StateCommitted c w)
    as (b1 & pre & Hrun1 & Hsame1 & Hchg1).
  set (c1 := set_backlogs b1 (set_state StateCommitted c)) in *.
  set (w1 := {| the_heap := the_heap w; trace := trace w ++ pre |}) in *.
  set (c2 := set_completed true
               (set_sequence (Log_Sequence cur)
                  (set_viewNumber (Log_ViewNumber cur)
                     (set_consensusLogs (consensusLogs c1 ++ [cur]) c1)))).
  set (w2 := {| the_heap := the_heap w;
                trace := (trace w ++ pre)
                         ++ [EffCommit (Preprepare_Proposal pp) StateCommitted
                               (Backend_Commit (backend c) (Preprepare_Proposal pp))] |}).
  assert (Hne : state c2 <> StateAcceptRequest) by (simpl; discriminate).
  destruct (setState_change admissible StateAcceptRequest c2 w2 Hne)
    as (b2 & posts & Hrun2 & Hposts).
  exists (set_backlogs b2 (set_state StateAcceptRequest c2)), pre, posts.
  split.
  - unfold commit. unfold mbind at 1. unfold go_bind at 1. rewrite Hrun1.
    unfold mbind, go_bind, self, deref, update, emit, mret, go_ret.
    cbn [fst snd].
    replace (current c1) with (Some cur) by (symmetry; exact Hcur).
    rewrite Hpp. cbn [fst snd].
    change (state c1) with StateCommitted.
    change (backend c1) with (backend c).
    change (the_heap w1) with (the_heap w).
    change (trace w1) with (trace w ++ pre).
    fold c2. fold w2. rewrite Hrun2.
    unfold w2; cbn [the_heap trace]. change (state c2) with StateCommitted.
    repeat rewrite <- app_assoc. reflexivity.
  - repeat split; try reflexivity; try exact Hcur; try exact Hposts.
    + destruct (decide (state c = StateCommitted)) as [Heq|Hneq].
      * destruct (Hsame1 Heq) as [-> _]. constructor.
      * destruct (Hchg1 Hneq) as (posts1 & -> & Hp1).
        constructor; [reflexivity|]. constructor; [reflexivity|].
        eapply Forall_impl; [exact Hp1|].
        intros [] He; simpl in *; congruence.
    + intros Heq. apply Hsame1, Heq.
    + intros Hneq. destruct (Hchg1 Hneq) as (posts1 & -> & Hp1). eauto.
Qed.

(** Without a pre-prepare in the current log the commit procedure
    panics on the nil dereference. *)
Lemma commit_panics c w cur :
  current c = Some cur ->
  Log_Preprepare cur = None ->
  commit admissible (c, w) = None.
Proof.
  intros Hcur Hpp.
  destruct (setState_run admissible StateCommitted c w) as (b1 & pre & Hrun1 & _).
  unfold commit. unfold mbind at 1. unfold go_bind at 1. rewrite Hrun1.
  unfold mbind, go_bind, self, deref, panic. cbn [fst snd].
  change (current (set_backlogs b1 (set_state StateCommitted c))) with (current c).
  rewrite Hcur. unfold mret, go_ret. rewrite Hpp. reflexivity.
Qed.

End CommitProcedure.

(** ** The commit procedure *)

(** C1. For every core whose current per-sequence log is at view
    [(v, s)] and holds a pre-prepare, the commit procedure returns, hands
    the proposal of that pre-prepare to [host.commit], appends exactly
    one entry, the current log, at the end of the consensus log, leaves
    [view_number] at [v], [sequence] at [s], [completed] true, and the
    core in state ACCEPT_REQUEST. *)
Theorem commit_appends_and_advances admissible c w cur pp v s :
  current c = Some cur ->
  Log_Preprepare cur = Some pp ->
  load (the_heap w) (Log_ViewNumber cur) = Some v ->
  load (the_heap w) (Log_Sequence cur) = Some s ->
  exists c' w' evs,
    commit admissible (c, w) = Some (tt, (c', w'))
    /\ trace w' = trace w ++ evs
    /\ (exists st r, EffCommit (Preprepare_Proposal pp) st r ∈ evs)
    /\ consensusLogs c' = consensusLogs c ++ [cur]
    /\ load (the_heap w') (viewNumber c') = Some v
    /\ load (the_heap w') (sequence c') = Some s
    /\ completed c' = true
    /\ state c' = StateAcceptRequest.
Proof.
  intros Hcur Hpp Hv Hs.
  destruct (commit_run admissible c w cur pp Hcur Hpp)
    as (c' & pre & posts & Hrun & Hst & Hvn & Hsq & Hcp & Hlogs & _).
  eexists c', _, _. split; [exact Hrun|]. cbn [trace the_heap].
  split; [reflexivity|]. split.
  { eexists _, _. apply elem_of_app. right. apply list_elem_of_here. }
  rewrite Hvn, Hsq. auto.
Qed.

(** The statement of C1 on the demo replica, whose log is at view (0, 1). *)
Lemma commit_appends_and_advances_witness :
  exists c' w' evs,
    commit demoAdmissible (demoConfig true) = Some (tt, (c', w'))
    /\ trace w' = trace (demoConfig true).2 ++ evs
    /\ (exists st r, EffCommit (Some demoProposal) st r ∈ evs)
    /\ consensusLogs c' = consensusLogs (demoConfig true).1 ++ [demoLog]
    /\ load (the_heap w') (viewNumber c') = Some 0
    /\ load (the_heap w') (sequence c') = Some 1
    /\ completed c' = true
    /\ state c' = StateAcceptRequest.
Proof.
  apply (commit_appends_and_advances demoAdmissible
           (demoConfig true).1 (demoConfig true).2 demoLog demoPreprepare 0 1);
    reflexivity.
Defined.









(** ** Construction and proposals *)

Lemma load_alloc_new (h : heap) z : load (h ++ [z]) (Some (length h)) = Some z.
Proof.
  unfold load. rewrite lookup_app_r by lia.
  replace (length h - length h)%nat with 0%nat by lia. reflexivity.
Qed.

Lemma lookup_alloc_old (h : heap) z l x :
  h !! l = Some x -> (h ++ [z]) !! l = Some x.
Proof. intros H. rewrite lookup_app_l; [exact H | eapply lookup_lt_Some, H]. Qed.

Lemma load_alloc_old (h : heap) z p :
  valid h p -> load (h ++ [z]) p = load h p.
Proof.
  destruct p as [l|]; simpl; [|reflexivity].
  intros Hl. rewrite lookup_app_l by exact Hl. reflexivity.
Qed.

(** C10. Every core returned by [New] is in state ACCEPT_REQUEST, with
    [view_number] and [sequence] both 0, [completed] false, an empty
    backlog map and an empty consensus log.  The two integers are stored
    by [New] itself: its two pointers are two distinct cells that did
    not exist in the store before the call and hold 0 in the store after
    it, no other cell is added, and every cell that existed keeps its
    content. *)
Theorem New_initial_core backend w :
  state (New backend w).1 = StateAcceptRequest
  /\ load (the_heap (New backend w).2) (viewNumber (New backend w).1) = Some 0
  /\ load (the_heap (New backend w).2) (sequence (New backend w).1) = Some 0
  /\ viewNumber (New backend w).1 <> sequence (New backend w).1
  /\ completed (New backend w).1 = false
  /\ backlogs (New backend w).1 = ∅
  /\ consensusLogs (New backend w).1 = []
  /\ exists lview lseq,
       viewNumber (New backend w).1 = Some lview
       /\ sequence (New backend w).1 = Some lseq
       /\ the_heap (New backend w).2 !! lview = Some 0
       /\ the_heap (New backend w).2 !! lseq = Some 0
       /\ the_heap w !! lview = None
       /\ the_heap w !! lseq = None
       /\ length (the_heap (New backend w).2) = (length (the_heap w) + 2)%nat
       /\ (forall l x, the_heap w !! l = Some x ->
                       the_heap (New backend w).2 !! l = Some x).
Proof.
  unfold New, alloc. cbn [fst snd state viewNumber sequence completed backlogs
                          consensusLogs the_heap].
  split; [reflexivity|]. split.
  { replace (S (length (the_heap w))) with (length (the_heap w ++ [0]))
      by (rewrite length_app; simpl; lia).
    apply load_alloc_new. }
  split.
  { rewrite load_alloc_old by (simpl; rewrite length_app; simpl; lia).
    apply load_alloc_new. }
  split; [rewrite length_app; simpl; intros H; injection H; lia|].
  do 3 (split; [reflexivity|]).
  eexists _, _. split; [reflexivity|]. split; [reflexivity|].
  split.
  { rewrite lookup_app_r by lia.
    replace (length (the_heap w ++ [0%Z]) - length (the_heap w ++ [0%Z]))%nat
      with 0%nat by lia. reflexivity. }
  split.
  { apply lookup_alloc_old. rewrite lookup_app_r by lia.
    replace (length (the_heap w) - length (the_heap w))%nat with 0%nat by lia.
    reflexivity. }
  split; [apply lookup_ge_None_2; rewrite length_app; simpl; lia|].
  split; [apply lookup_ge_None_2; lia|].
  split; [rewrite !length_app; simpl; lia|].
  intros l x Hl. apply lookup_alloc_old, lookup_alloc_old, Hl.
Qed.

Lemma makeProposal_run seq r c w :
  makeProposal seq (Some r) (c, w)
  = Some ({| Proposal_Header :=
               Some {| Header_Sequence := seq;
                       Header_ParentHash := Backend_Hash (backend c) (Request_Payload r);
                       Header_DataHash := Backend_Hash (backend c) (Request_Payload r) |};
             Proposal_Payload := Request_Payload r |}, (c, w)).
Proof. reflexivity. Qed.

(** C9. For every sequence number and every request, [makeProposal]
    returns a proposal whose [parent_hash] equals its [data_hash], both
    being the host's hash of the request payload; the field is the same
    for every core of that host, whatever its logs hold. *)
Theorem makeProposal_parent_hash_is_data_hash seq r c w :
  exists hd,
    makeProposal seq (Some r) (c, w)
    = Some ({| Proposal_Header := Some hd; Proposal_Payload := Request_Payload r |},
            (c, w))
    /\ Header_ParentHash hd = Header_DataHash hd
    /\ Header_DataHash hd = Backend_Hash (backend c) (Request_Payload r)
    /\ forall seq' c' w',
         backend c' = backend c ->
         exists hd',
           makeProposal seq' (Some r) (c', w')
           = Some ({| Proposal_Header := Some hd';
                      Proposal_Payload := Request_Payload r |}, (c', w'))
           /\ Header_ParentHash hd' = Header_ParentHash hd.
Proof.
  eexists. split; [apply makeProposal_run|]. cbn [Header_ParentHash Header_DataHash].
  split; [reflexivity|]. split; [reflexivity|].
  intros seq' c' w' Hb. eexists. split; [apply makeProposal_run|].
  cbn [Header_ParentHash]. rewrite Hb. reflexivity.
Qed.

(** The statement of C9 on two cores of the demo host. *)
Lemma makeProposal_parent_hash_is_data_hash_witness :
  exists hd',
    makeProposal (Some 0%nat) (Some {| Request_Payload := [Byte.x01] |})
      (set_state StatePrepared (demoConfig true).1, demoWorld)
    = Some ({| Proposal_Header := Some hd'; Proposal_Payload := [Byte.x01] |},
            (set_state StatePrepared (demoConfig true).1, demoWorld))
    /\ Header_ParentHash hd' = [Byte.xff; Byte.x01].
Proof.
  destruct (makeProposal_parent_hash_is_data_hash (Some 1%nat)
              {| Request_Payload := [Byte.x01] |}
              (demoConfig true).1 (demoConfig true).2)
    as (hd & Hrun & _ & Hdata & Hany).
  destruct (Hany (Some 0%nat) (set_state StatePrepared (demoConfig true).1)
              demoWorld eq_refl) as (hd' & Hrun' & Hsame).
  exists hd'. split; [exact Hrun'|].
  injection Hrun as <-. exact Hsame.
Defined.

(** C6. On a core whose sequence is [s], [nextSequence] returns a view
    with the core's own view number and a sequence of [s + 1], held in a
    fresh cell; the proposal [makeProposal] builds from it carries
    [header.sequence = s + 1], [header.data_hash] equal to the host's hash
    of the request payload, and the request payload as its payload.
    Neither call changes the core, and no cell allocated before, the
    core's own sequence among them, is written. *)
Theorem nextSequence_then_makeProposal c w l s r :
  sequence c = Some l ->
  the_heap w !! l = Some s ->
  valid (the_heap w) (viewNumber c) ->
  exists v w' p hd,
    nextSequence (c, w) = Some (v, (c, w'))
    /\ makeProposal (View_Sequence v) (Some r) (c, w') = Some (p, (c, w'))
    /\ View_ViewNumber v = viewNumber c
    /\ load (the_heap w') (View_ViewNumber v) = load (the_heap w) (viewNumber c)
    /\ load (the_heap w') (View_Sequence v) = Some (s + 1)
    /\ Proposal_Header p = Some hd
    /\ load (the_heap w') (Header_Sequence hd) = Some (s + 1)
    /\ Header_DataHash hd = Backend_Hash (backend c) (Request_Payload r)
    /\ Proposal_Payload p = Request_Payload r
    /\ load (the_heap w') (sequence c) = Some s
    /\ (forall l' z, the_heap w !! l' = Some z -> the_heap w' !! l' = Some z)
    /\ trace w' = trace w.
Proof.
  intros Hseq Hl Hv.
  unfold nextSequence, mbind, go_bind, self, bigNewAdd, mret, go_ret.
  cbn [fst snd]. rewrite Hseq. unfold load at 1. rewrite Hl. cbn [default alloc].
  eexists _, _, _, _. split; [reflexivity|].
  cbn [View_Sequence View_ViewNumber the_heap trace].
  split; [apply makeProposal_run|]. cbn [Proposal_Header Proposal_Payload Header_Sequence
                               Header_DataHash].
  split; [reflexivity|]. split; [apply load_alloc_old, Hv|].
  split; [apply load_alloc_new|]. split; [reflexivity|].
  split; [apply load_alloc_new|]. split; [reflexivity|]. split; [reflexivity|].
  split.
  { unfold load. erewrite lookup_alloc_old by exact Hl. reflexivity. }
  split; [|reflexivity].
  intros l' z Hz. apply lookup_alloc_old, Hz.
Qed.

(** The statement of C6 on the demo replica, whose sequence is 0 (cell 2). *)
Lemma nextSequence_then_makeProposal_witness :
  exists v w' p hd,
    nextSequence ((demoConfig true).1, (demoConfig true).2)
    = Some (v, ((demoConfig true).1, w'))
    /\ makeProposal (View_Sequence v) (Some {| Request_Payload := [Byte.x01] |})
         ((demoConfig true).1, w') = Some (p, ((demoConfig true).1, w'))
    /\ Proposal_Header p = Some hd
    /\ load (the_heap w') (Header_Sequence hd) = Some 1
    /\ load (the_heap w') (sequence (demoConfig true).1) = Some 0.
Proof.
  destruct (nextSequence_then_makeProposal (demoConfig true).1 (demoConfig true).2
              2%nat 0 {| Request_Payload := [Byte.x01] |})
    as (v & w' & p & hd & H1 & H2 & _ & _ & _ & H3 & H4 & _ & _ & H5 & _);
    [reflexivity | reflexivity | simpl; lia |].
  exists v, w', p, hd. auto.
Defined.

(** ** Verification of PREPARE and COMMIT subjects *)

Lemma bytesEqual_eq a b : bytesEqual a b = true <-> a = b.
Proof.
  revert b; induction a as [|x a IH]; intros [|y b]; simpl;
    try (split; [discriminate | intros H; discriminate H]); [tauto|].
  rewrite andb_true_iff, IH. split.
  - intros [Hxy ->]. apply Byte.byte_dec_bl in Hxy. congruence.
  - intros H; injection H as -> ->. split; [apply Byte.byte_dec_lb|]; reflexivity.
Qed.

Lemma bigEqual_eq h p q : bigEqual h p q = true <-> load h p = load h q.
Proof.
  destruct p as [a|], q as [b|]; simpl;
    try (split; [discriminate | intros H; discriminate H]); [|tauto].
  rewrite Z.eqb_eq. split; [intros ->; reflexivity | intros H; injection H; auto].
Qed.

Lemma subjectEqual_eq h a b :
  subjectEqual h (Some a) (Some b) = true <-> subject_fields h a = subject_fields h b.
Proof.
  unfold subjectEqual, subject_fields, viewEqual.
  rewrite andb_true_iff, bytesEqual_eq.
  destruct (Subject_View a) as [va|], (Subject_View b) as [vb|].
  - rewrite andb_true_iff, !bigEqual_eq. split.
    + intros [[-> ->] ->]. reflexivity.
    + intros H; injection H as -> -> ->. auto.
  - split; [intros [H _]; discriminate | intros H; discriminate H].
  - split; [intros [H _]; discriminate | intros H; discriminate H].
  - split; [intros [_ ->]; reflexivity | intros H; injection H as ->; auto].
Qed.

Lemma verifyCommit_run commit src c w :
  verifyCommit commit src (c, w)
  = Some (if subjectEqual (the_heap w) commit (subject c) then None
          else Some ErrSubjectNotMatched, (c, w)).
Proof.
  unfold verifyCommit, mbind, go_bind, self, store, mret, go_ret; simpl.
  destruct (subjectEqual _ _ _); reflexivity.
Qed.

Lemma verifyPrepare_run prepare src c w :
  verifyPrepare prepare src (c, w)
  = Some (if subjectEqual (the_heap w) prepare (subject c) then None
          else Some ErrSubjectNotMatched, (c, w)).
Proof.
  unfold verifyPrepare, mbind, go_bind, self, store, mret, go_ret; simpl.
  destruct (subjectEqual _ _ _); reflexivity.
Qed.

(** C2. For every incoming PREPARE or COMMIT subject and every local
    subject, verification returns [SubjectNotMatched] if and only if the
    two subjects differ on one of the three fields (view number,
    sequence, digest), and returns no error otherwise; it changes
    nothing.  In particular an incoming subject whose sequence is absent
    matches no local subject whose sequence is present, and an incoming
    subject whose view number differs from the local one is rejected
    even when sequence and digest agree. *)
Theorem verify_not_matched_iff_fields_differ incoming local src c w :
  let cfg := (set_subject (Some local) c, w) in
  let h := the_heap w in
  (verifyCommit (Some incoming) src cfg = Some (Some ErrSubjectNotMatched, cfg)
   <-> subject_fields h incoming <> subject_fields h local)
  /\ (verifyCommit (Some incoming) src cfg = Some (None, cfg)
      <-> subject_fields h incoming = subject_fields h local)
  /\ verifyPrepare (Some incoming) src cfg = verifyCommit (Some incoming) src cfg
  /\ (forall vi vl z,
        Subject_View incoming = Some vi ->
        Subject_View local = Some vl ->
        load h (View_Sequence vi) = None ->
        load h (View_Sequence vl) = Some z ->
        verifyCommit (Some incoming) src cfg = Some (Some ErrSubjectNotMatched, cfg))
  /\ (forall vi vl,
        Subject_View incoming = Some vi ->
        Subject_View local = Some vl ->
        load h (View_ViewNumber vi) <> load h (View_ViewNumber vl) ->
        verifyCommit (Some incoming) src cfg = Some (Some ErrSubjectNotMatched, cfg)).
Proof.
  intros cfg h. unfold cfg.
  rewrite verifyPrepare_run, verifyCommit_run. cbn [subject set_subject].
  pose proof (subjectEqual_eq h incoming local) as Heq. fold h.
  assert (Hdiff : subject_fields h incoming <> subject_fields h local ->
                  subjectEqual h (Some incoming) (Some local) = false).
  { intros Hne. destruct (subjectEqual h (Some incoming) (Some local)) eqn:E;
      [exfalso; apply Hne, Heq; reflexivity | reflexivity]. }
  split; [|split; [|split; [reflexivity|split]]].
  - split.
    + intros H Hf. apply Heq in Hf. rewrite Hf in H. discriminate.
    + intros Hne. rewrite (Hdiff Hne). reflexivity.
  - split.
    + intros H. apply Heq.
      destruct (subjectEqual h (Some incoming) (Some local)); [reflexivity|discriminate].
    + intros Hf. apply Heq in Hf. rewrite Hf. reflexivity.
  - intros vi vl z Hvi Hvl Hi Hl. rewrite Hdiff; [reflexivity|].
    unfold subject_fields. rewrite Hvi, Hvl, Hi, Hl. intros H; discriminate H.
  - intros vi vl Hvi Hvl Hne. rewrite Hdiff; [reflexivity|].
    unfold subject_fields. rewrite Hvi, Hvl. intros H; injection H. tauto.
Qed.

(** The statement of C2 on three cases of [TestVerifyCommit]: an absent
    sequence, a different view number, and equal subjects. *)
Lemma verify_not_matched_iff_fields_differ_witness :
  let c := (demoConfig true).1 in
  verifyCommit (Some (subjectAt (Some 0%nat) None)) 0%N
    (set_subject (Some (subjectAt (Some 1%nat) (Some 1%nat))) c, demoWorld)
  = Some (Some ErrSubjectNotMatched,
          (set_subject (Some (subjectAt (Some 1%nat) (Some 1%nat))) c, demoWorld))
  /\ verifyCommit (Some (subjectAt (Some 1%nat) (Some 0%nat))) 0%N
       (set_subject (Some (subjectAt (Some 0%nat) (Some 0%nat))) c, demoWorld)
     = Some (Some ErrSubjectNotMatched,
             (set_subject (Some (subjectAt (Some 0%nat) (Some 0%nat))) c, demoWorld))
  /\ verifyCommit (Some (subjectAt (Some 0%nat) (Some 0%nat))) 0%N
       (set_subject (Some (subjectAt (Some 0%nat) (Some 0%nat))) c, demoWorld)
     = Some (None,
             (set_subject (Some (subjectAt (Some 0%nat) (Some 0%nat))) c, demoWorld)).
Proof.
  intros c. split; [|split].
  - destruct (verify_not_matched_iff_fields_differ
                (subjectAt (Some 0%nat) None) (subjectAt (Some 1%nat) (Some 1%nat))
                0%N c demoWorld) as (_ & _ & _ & Habsent & _).
    apply (Habsent _ _ 1 eq_refl eq_refl); reflexivity.
  - destruct (verify_not_matched_iff_fields_differ
                (subjectAt (Some 1%nat) (Some 0%nat)) (subjectAt (Some 0%nat) (Some 0%nat))
                0%N c demoWorld) as (_ & _ & _ & _ & Hview).
    apply (Hview _ _ eq_refl eq_refl). simpl. discriminate.
  - destruct (verify_not_matched_iff_fields_differ
                (subjectAt (Some 0%nat) (Some 0%nat)) (subjectAt (Some 0%nat) (Some 0%nat))
                0%N c demoWorld) as (_ & Hsame & _).
    apply Hsame. reflexivity.
Defined.

(** ** Quorums *)

Section Quorum.

Variable admissible : State -> MsgCode -> bool.

Lemma checkMessage_run m view c w :
  exists r b',
    checkMessage m view (c, w) = Some (r, (set_backlogs b' c, w))
    /\ (r = None -> b' = backlogs c).
Proof.
  unfold checkMessage, mbind, go_bind, self, store, defer, update, mret, go_ret.
  cbn [fst snd].
  destruct (viewCmp _ _ _ _).
  - destruct (ValidatorSet_has _ _); eexists _, (backlogs c);
      (split; [destruct c; reflexivity | reflexivity]).
  - eexists _, (backlogs c). split; [destruct c; reflexivity | discriminate].
  - eexists _, _. split; [reflexivity | discriminate].
Qed.

Lemma posts_no_transition posts a b :
  Forall (fun e => is_post e = true) posts -> EffTransition a b ∉ posts.
Proof.
  intros H Hin. rewrite Forall_forall in H. apply H in Hin. discriminate.
Qed.

(** A PREPARE either leaves state and trace alone, or finds a quorum of
    prepares and moves the core to PREPARED. *)
Lemma handlePrepare_step m c w r c' w' :
  handlePrepare admissible m (c, w) = Some (r, (c', w')) ->
  coreF c' = coreF c
  /\ ((state c' = state c /\ trace w' = trace w)
      \/ exists cur posts,
           current c' = Some cur
           /\ 2 * coreF c + 1 <= Z.of_nat (size (Log_Prepares cur))
           /\ state c' = StatePrepared
           /\ Forall (fun e => is_post e = true) posts
           /\ trace w' = trace w ++ EffTransition (state c) StatePrepared
                                 :: EffProcessBacklog
                                 :: posts ++ [EffBroadcast msgCommit (subject c)]).
Proof.
  unfold handlePrepare. destruct (message_Msg m) as [pp|s].
  { intros H; injection H as <- <- <-. auto. }
  unfold mbind at 1. unfold go_bind at 1.
  destruct (checkMessage_run m (Subject_View s) c w) as (r0 & b' & -> & Hb).
  destruct r0 as [e|].
  { intros H; injection H as <- <- <-. auto. }
  rewrite (Hb eq_refl). replace (set_backlogs (backlogs c) c) with c by (destruct c; reflexivity).
  unfold mbind at 1. unfold go_bind at 1. rewrite verifyPrepare_run.
  destruct (subjectEqual _ _ _).
  2:{ intros H; injection H as <- <- <-. auto. }
  unfold mbind, go_bind, self, deref, update, mret, go_ret. cbn [fst snd].
  destruct (current c) as [cur|] eqn:Hcur; [|discriminate].
  cbn [current set_current fst snd].
  match goal with |- context [if ?b then _ else _] => destruct b eqn:Hq end.
  - apply andb_true_iff in Hq as [Hsize Hst]. apply Z.leb_le in Hsize.
    cbn [coreF set_current] in Hsize.
    assert (Hne : state (set_current (Some (add_prepare (message_Address m) cur)) c)
                  <> StatePrepared).
    { cbn [state set_current]. apply orb_true_iff in Hst as [Hst|Hst].
      - apply bool_decide_eq_true in Hst. cbn [state set_current] in Hst. congruence.
      - apply andb_true_iff in Hst as [Hst _].
        apply bool_decide_eq_true in Hst. cbn [state set_current] in Hst. congruence. }
    destruct (setState_change admissible StatePrepared _ w Hne)
      as (b2 & posts & Hrun & Hposts).
    unfold emit. rewrite Hrun. cbn [fst snd the_heap trace].
    intros H; injection H as <- <- <-. split; [reflexivity|]. right.
    exists (add_prepare (message_Address m) cur), posts.
    cbn [current set_backlogs set_state set_current coreF state subject].
    repeat split; auto.
    rewrite <- app_assoc. reflexivity.
  - intros H; injection H as <- <- <-. auto.
Qed.

(** A COMMIT either leaves state and trace alone, or finds a quorum of
    commits in state PREPARED and runs the commit procedure. *)
Lemma handleCommit_step m c w r c' w' :
  handleCommit admissible m (c, w) = Some (r, (c', w')) ->
  coreF c' = coreF c
  /\ ((state c' = state c /\ trace w' = trace w)
      \/ exists cur posts1 posts2 p ok,
           current c' = Some cur
           /\ 2 * coreF c + 1 <= Z.of_nat (size (Log_Commits cur))
           /\ state c = StatePrepared
           /\ state c' = StateAcceptRequest
           /\ Forall (fun e => is_post e = true) posts1
           /\ Forall (fun e => is_post e = true) posts2
           /\ trace w' = trace w ++ EffTransition StatePrepared StateCommitted
                                 :: EffProcessBacklog
                                 :: posts1
                                 ++ EffCommit p StateCommitted ok
                                 :: EffTransition StateCommitted StateAcceptRequest
                                 :: EffProcessBacklog :: posts2).
Proof.
  unfold handleCommit. destruct (message_Msg m) as [pp|s].
  { intros H; injection H as <- <- <-. auto. }
  unfold mbind at 1. unfold go_bind at 1.
  destruct (checkMessage_run m (Subject_View s) c w) as (r0 & b' & -> & Hb).
  destruct r0 as [e|].
  { intros H; injection H as <- <- <-. auto. }
  rewrite (Hb eq_refl). replace (set_backlogs (backlogs c) c) with c by (destruct c; reflexivity).
  unfold mbind at 1. unfold go_bind at 1. rewrite verifyCommit_run.
  destruct (subjectEqual _ _ _).
  2:{ intros H; injection H as <- <- <-. auto. }
  unfold mbind at 1 2 3 4 5 6. unfold go_bind at 1 2 3 4 5 6.
  unfold self, deref, update, mret, go_ret. cbn [fst snd].
  destruct (current c) as [cur|] eqn:Hcur; [|discriminate].
  cbn [current set_current fst snd].
  match goal with |- context [if ?b then _ else _] => destruct b eqn:Hq end.
  - apply andb_true_iff in Hq as [Hsize Hst]. apply Z.leb_le in Hsize.
    apply bool_decide_eq_true in Hst. cbn [coreF state set_current] in Hsize, Hst.
    set (c1 := set_current (Some (add_commit (message_Address m) cur)) c).
    destruct (Log_Preprepare cur) as [pp|] eqn:Hpp.
    + destruct (commit_run admissible c1 w (add_commit (message_Address m) cur) pp
                  eq_refl Hpp)
        as (c2 & pre & posts2 & Hrun & Hst2 & _ & _ & _ & _ & Hcur2 & _ & HF & _
            & _ & Hposts2 & _ & Hchg).
      destruct Hchg as (posts1 & -> & Hposts1).
      { cbn [state c1 set_current]. rewrite Hst. discriminate. }
      rewrite Hrun. intros H; injection H as <- <- <-.
      split; [exact HF|]. right.
      eexists _, posts1, posts2, _, _.
      split; [exact Hcur2|]. split; [exact Hsize|]. split; [exact Hst|].
      split; [exact Hst2|]. split; [exact Hposts1|]. split; [exact Hposts2|].
      cbn [trace state c1 set_current]. rewrite Hst. reflexivity.
    + rewrite (commit_panics admissible c1 w (add_commit (message_Address m) cur)
                 eq_refl Hpp). discriminate.
  - intros H; injection H as <- <- <-. auto.
Qed.

Lemma new_events_app (c c' : core) (w w' : world) evs :
  trace w' = trace w ++ evs -> new_events (c, w) (c', w') = evs.
Proof. intros H. unfold new_events; simpl. rewrite H. apply drop_app_length. Qed.

Lemma new_events_same (c c' : core) (w w' : world) :
  trace w' = trace w -> new_events (c, w) (c', w') = [].
Proof. intros H. unfold new_events; simpl. rewrite H. apply drop_all. Qed.

Lemma feed_quorum_witnessed v s r s' :
  feed admissible v s = Some (r, s') -> quorum_witnessed (s, v, s').
Proof.
  destruct s as [c w], s' as [c' w']. unfold quorum_witnessed. cbn [fst snd].
  destruct v as [m|m]; simpl; intros Hfeed.
  - apply handlePrepare_step in Hfeed as [HF [[Hst Htr]|Hmove]].
    + rewrite (new_events_same c c' w w' Htr).
      repeat split; auto; intros from Hin; inversion Hin.
    + destruct Hmove as (cur & posts & Hcur & Hq & Hst & Hposts & Htr).
      rewrite (new_events_app c c' w w' _ Htr).
      unfold prepares_of; cbn [fst]. rewrite Hcur.
      split; [intros _ _; exact Hq|]. split; [|split; [lia | exact HF]].
      intros from Hin. exfalso.
      apply elem_of_cons in Hin as [Hin|Hin]; [discriminate|].
      apply elem_of_cons in Hin as [Hin|Hin]; [discriminate|].
      apply elem_of_app in Hin as [Hin|Hin];
        [exact (posts_no_transition _ _ _ Hposts Hin)|].
      apply list_elem_of_singleton in Hin. discriminate.
  - apply handleCommit_step in Hfeed as [HF [[Hst Htr]|Hmove]].
    + rewrite (new_events_same c c' w w' Htr).
      repeat split; auto; intros from Hin; inversion Hin.
    + destruct Hmove as (cur & posts1 & posts2 & p & ok & Hcur & Hq & Hst & Hst'
                         & Hposts1 & Hposts2 & Htr).
      rewrite (new_events_app c c' w w' _ Htr).
      unfold commits_of; cbn [fst]. rewrite Hcur.
      split; [|split; [intros _ _; exact Hq | split; [lia | exact HF]]].
      intros from Hin. exfalso.
      apply elem_of_cons in Hin as [Hin|Hin]; [discriminate|].
      apply elem_of_cons in Hin as [Hin|Hin]; [discriminate|].
      apply elem_of_app in Hin as [Hin|Hin];
        [exact (posts_no_transition _ _ _ Hposts1 Hin)|].
      apply elem_of_cons in Hin as [Hin|Hin]; [discriminate|].
      apply elem_of_cons in Hin as [Hin|Hin]; [discriminate|].
      apply elem_of_cons in Hin as [Hin|Hin]; [discriminate|].
      exact (posts_no_transition _ _ _ Hposts2 Hin).
Qed.

End Quorum.

(** ** Only matching votes are recorded *)

Ltac by_elements :=
  apply elem_of_subseteq; intros ?;
  rewrite ?elem_of_union, ?elem_of_empty; tauto.

Ltac by_elements_of H :=
  let x := fresh "x" in
  rewrite elem_of_subseteq in H; apply elem_of_subseteq; intros x;
  specialize (H x); rewrite ?elem_of_union, ?elem_of_empty in *; tauto.

Ltac by_elements_of2 H1 H2 :=
  let x := fresh "x" in
  rewrite elem_of_subseteq in H1, H2; apply elem_of_subseteq; intros x;
  specialize (H1 x); specialize (H2 x);
  rewrite ?elem_of_union, ?elem_of_empty in *; tauto.

Section Matching.

Variable admissible : State -> MsgCode -> bool.

Lemma prepares_of_voters s : prepares_of s = Z.of_nat (size (prepare_voters s)).
Proof.
  unfold prepares_of, prepare_voters. destruct (current s.1); [reflexivity|].
  rewrite size_empty. reflexivity.
Qed.

Lemma commits_of_voters s : commits_of s = Z.of_nat (size (commit_voters s)).
Proof.
  unfold commits_of, commit_voters. destruct (current s.1); [reflexivity|].
  rewrite size_empty. reflexivity.
Qed.

Lemma unchanged_only_matching (c c' : core) (w : world) v :
  subject c' = subject c -> current c' = current c ->
  only_matching_recorded ((c, w), v, (c', w)).
Proof.
  intros Hs Hc. unfold only_matching_recorded, prepare_voters, commit_voters.
  cbn [fst snd]. rewrite Hc. split; [exact Hs|]. split; [reflexivity|].
  split; by_elements.
Qed.

(** A PREPARE adds at most its sender to the prepares, and only when its
    subject passes the comparison with the local subject. *)
Lemma handlePrepare_records m c w r c' w' :
  handlePrepare admissible m (c, w) = Some (r, (c', w')) ->
  only_matching_recorded ((c, w), Prepare m, (c', w')).
Proof.
  unfold handlePrepare. destruct (message_Msg m) as [pp|s] eqn:Hmsg.
  { intros H; injection H as <- <- <-. apply unchanged_only_matching; reflexivity. }
  unfold mbind at 1. unfold go_bind at 1.
  destruct (checkMessage_run m (Subject_View s) c w) as (r0 & b' & -> & Hb).
  destruct r0 as [e|].
  { intros H; injection H as <- <- <-. apply unchanged_only_matching; reflexivity. }
  rewrite (Hb eq_refl). replace (set_backlogs (backlogs c) c) with c by (destruct c; reflexivity).
  unfold mbind at 1. unfold go_bind at 1. rewrite verifyPrepare_run.
  destruct (subjectEqual (the_heap w) (Some s) (subject c)) eqn:Hmatch.
  2:{ intros H; injection H as <- <- <-. apply unchanged_only_matching; reflexivity. }
  unfold mbind, go_bind, self, deref, update, mret, go_ret. cbn [fst snd].
  destruct (current c) as [cur|] eqn:Hcur; [|discriminate].
  cbn [current set_current fst snd].
  assert (Hgoal : forall b2 st w2,
    the_heap w2 = the_heap w ->
    only_matching_recorded
      ((c, w), Prepare m,
       (set_backlogs b2 (set_state st
          (set_current (Some (add_prepare (message_Address m) cur)) c)), w2))).
  { intros b2 st w2 Hh.
    unfold only_matching_recorded, prepare_voters, commit_voters.
    cbn [fst snd current set_backlogs set_state set_current subject matching_prepares
         matching_commits add_prepare Log_Prepares Log_Commits].
    unfold matching_sender, vote_matches.
    rewrite Hcur, Hmsg, Hmatch. split; [reflexivity|]. split; [exact Hh|].
    split; by_elements. }
  match goal with |- context [if ?b then _ else _] => destruct b eqn:Hq end.
  - destruct (setState_run admissible StatePrepared
                (set_current (Some (add_prepare (message_Address m) cur)) c) w)
      as (b2 & evs & Hrun & _).
    unfold emit. rewrite Hrun. cbn [fst snd the_heap trace].
    intros H; injection H as <- <- <-. apply Hgoal. reflexivity.
  - intros H; injection H as <- <- <-.
    replace (set_current (Some (add_prepare (message_Address m) cur)) c)
      with (set_backlogs (backlogs c) (set_state (state c)
              (set_current (Some (add_prepare (message_Address m) cur)) c)))
      by (destruct c; reflexivity).
    apply Hgoal. reflexivity.
Qed.

(** A COMMIT adds at most its sender to the commits, and only when its
    subject passes the comparison with the local subject. *)
Lemma handleCommit_records m c w r c' w' :
  handleCommit admissible m (c, w) = Some (r, (c', w')) ->
  only_matching_recorded ((c, w), Commit m, (c', w')).
Proof.
  unfold handleCommit. destruct (message_Msg m) as [pp|s] eqn:Hmsg.
  { intros H; injection H as <- <- <-. apply unchanged_only_matching; reflexivity. }
  unfold mbind at 1. unfold go_bind at 1.
  destruct (checkMessage_run m (Subject_View s) c w) as (r0 & b' & -> & Hb).
  destruct r0 as [e|].
  { intros H; injection H as <- <- <-. apply unchanged_only_matching; reflexivity. }
  rewrite (Hb eq_refl). replace (set_backlogs (backlogs c) c) with c by (destruct c; reflexivity).
  unfold mbind at 1. unfold go_bind at 1. rewrite verifyCommit_run.
  destruct (subjectEqual (the_heap w) (Some s) (subject c)) eqn:Hmatch.
  2:{ intros H; injection H as <- <- <-. apply unchanged_only_matching; reflexivity. }
  unfold mbind at 1 2 3 4 5 6. unfold go_bind at 1 2 3 4 5 6.
  unfold self, deref, update, mret, go_ret. cbn [fst snd].
  destruct (current c) as [cur|] eqn:Hcur; [|discriminate].
  cbn [current set_current fst snd].
  set (c1 := set_current (Some (add_commit (message_Address m) cur)) c).
  assert (Hgoal : forall c2 w2,
    subject c2 = subject c ->
    current c2 = Some (add_commit (message_Address m) cur) ->
    the_heap w2 = the_heap w ->
    only_matching_recorded ((c, w), Commit m, (c2, w2))).
  { intros c2 w2 Hs Hc Hh.
    unfold only_matching_recorded, prepare_voters, commit_voters.
    cbn [fst snd matching_prepares matching_commits].
    unfold matching_sender, vote_matches.
    rewrite Hc, Hcur, Hmsg, Hmatch. cbn [add_commit Log_Prepares Log_Commits].
    split; [exact Hs|]. split; [exact Hh|]. split; by_elements. }
  match goal with |- context [if ?b then _ else _] => destruct b eqn:Hq end.
  - destruct (Log_Preprepare cur) as [pp|] eqn:Hpp.
    + destruct (commit_run admissible c1 w (add_commit (message_Address m) cur) pp
                  eq_refl Hpp)
        as (c2 & pre & posts2 & Hrun & _ & _ & _ & _ & _ & Hcur2 & _ & _ & Hsub & _).
      rewrite Hrun. intros H; injection H as <- <- <-.
      apply Hgoal; [exact Hsub | exact Hcur2 | reflexivity].
    + rewrite (commit_panics admissible c1 w (add_commit (message_Address m) cur)
                 eq_refl Hpp). discriminate.
  - intros H; injection H as <- <- <-. apply Hgoal; reflexivity.
Qed.

Lemma feed_only_matching v s r s' :
  feed admissible v s = Some (r, s') -> only_matching_recorded (s, v, s').
Proof.
  destruct s as [c w], s' as [c' w']. destruct v as [m|m]; simpl.
  - apply handlePrepare_records.
  - apply handleCommit_records.
Qed.

Lemma steps_only_matching s vs :
  Forall only_matching_recorded (steps admissible s vs).
Proof.
  revert s; induction vs as [|v vs IH]; intros s; simpl; [constructor|].
  destruct (feed admissible v s) as [[r s']|] eqn:Hfeed; [|constructor].
  constructor; [eapply feed_only_matching, Hfeed | apply IH].
Qed.

(** Along a run the records stay within what was recorded at the start
    and the senders of the matching votes fed so far; below the quorum
    on both counts, no step changes the state or adds an event. *)
Lemma steps_below_quorum vs : forall s,
  Z.of_nat (size (prepare_voters s
                  ∪ matching_prepares (the_heap s.2) (subject s.1) vs))
    <= 2 * coreF s.1 ->
  Z.of_nat (size (commit_voters s
                  ∪ matching_commits (the_heap s.2) (subject s.1) vs))
    <= 2 * coreF s.1 ->
  Forall (fun '(before, v, after) =>
            state after.1 = state s.1 /\ new_events before after = [])
         (steps admissible s vs).
Proof.
  induction vs as [|v vs IH]; intros s Hp Hc; simpl; [constructor|].
  destruct (feed admissible v s) as [[r s']|] eqn:Hfeed; [|constructor].
  pose proof (feed_quorum_witnessed admissible v s r s' Hfeed) as (_ & _ & Hquiet & HF).
  pose proof (feed_only_matching v s r s' Hfeed) as (Hsub & Hheap & Hpv & Hcv).
  assert (Hp' : prepare_voters s'
                ∪ matching_prepares (the_heap s'.2) (subject s'.1) vs
                ⊆ prepare_voters s
                  ∪ matching_prepares (the_heap s.2) (subject s.1) (v :: vs)).
  { rewrite Hsub, Hheap. clear -Hpv.
    destruct v; cbn [matching_prepares] in *; by_elements_of Hpv. }
  assert (Hc' : commit_voters s'
                ∪ matching_commits (the_heap s'.2) (subject s'.1) vs
                ⊆ commit_voters s
                  ∪ matching_commits (the_heap s.2) (subject s.1) (v :: vs)).
  { rewrite Hsub, Hheap. clear -Hcv.
    destruct v; cbn [matching_commits] in *; by_elements_of Hcv. }
  apply subseteq_size in Hp', Hc'.
  assert (Hstep : state s'.1 = state s.1 /\ new_events s s' = []).
  { apply Hquiet. destruct v.
    - rewrite prepares_of_voters.
      assert (size (prepare_voters s')
              <= size (prepare_voters s'
                       ∪ matching_prepares (the_heap s'.2) (subject s'.1) vs))%nat
        by (apply subseteq_size, union_subseteq_l).
      lia.
    - rewrite commits_of_voters.
      assert (size (commit_voters s')
              <= size (commit_voters s'
                       ∪ matching_commits (the_heap s'.2) (subject s'.1) vs))%nat
        by (apply subseteq_size, union_subseteq_l).
      lia. }
  constructor; [exact Hstep|].
  destruct Hstep as [Hst _].
  eapply Forall_impl; [apply IH; rewrite HF; lia|].
  intros [[before v'] after] [H1 H2]. split; [congruence | exact H2].
Qed.

(** Along a run the local subject, the store and [F] stay as they are,
    and the records stay within what was recorded at the start and the
    senders of the matching votes of the run. *)
Lemma steps_records_bounded vs : forall s,
  Forall (fun '(before, v, after) =>
            coreF before.1 = coreF s.1
            /\ prepare_voters after
               ⊆ prepare_voters s ∪ matching_prepares (the_heap s.2) (subject s.1) vs
            /\ commit_voters after
               ⊆ commit_voters s ∪ matching_commits (the_heap s.2) (subject s.1) vs)
         (steps admissible s vs).
Proof.
  induction vs as [|v vs IH]; intros s; simpl; [constructor|].
  destruct (feed admissible v s) as [[r s']|] eqn:Hfeed; [|constructor].
  pose proof (feed_quorum_witnessed admissible v s r s' Hfeed) as (_ & _ & _ & HF).
  pose proof (feed_only_matching v s r s' Hfeed) as (Hsub & Hheap & Hpv & Hcv).
  constructor.
  - split; [reflexivity|]. clear -Hpv Hcv. split.
    + destruct v; cbn [matching_prepares] in *; by_elements_of Hpv.
    + destruct v; cbn [matching_commits] in *; by_elements_of Hcv.
  - eapply Forall_impl; [apply IH|].
    intros [[before v'] after] (HF' & Hp' & Hc'). rewrite Hsub, Hheap in Hp', Hc'.
    split; [congruence|]. clear -Hpv Hcv Hp' Hc'. split.
    + clear Hcv Hc'. destruct v; cbn [matching_prepares] in *; by_elements_of2 Hpv Hp'.
    + clear Hpv Hp'. destruct v; cbn [matching_commits] in *; by_elements_of2 Hcv Hc'.
Qed.

End Matching.

(** C4. For every replica and every order in which PREPARE and COMMIT
    messages reach it, each step of the run satisfies the quorum rule:
    the core is moved into PREPARED only with at least [2F + 1] prepares
    recorded in its current log and into COMMITTED only with at least
    [2F + 1] commits recorded, that is, with strictly more than [2F];
    and a vote after which at most [2F] votes of its kind are recorded
    leaves the state where it was and adds nothing to the trace.  The
    record holds matching votes only: a step adds at most the sender of
    its vote to the record of the kind of the vote, and only when the
    subject of the vote passes the comparison with the local subject.
    Hence the state does not advance on at most [2F] matching votes:
    when the validators recorded at the start together with the senders
    of the matching PREPAREs of the run number at most [2F], no step
    moves the core into PREPARED; likewise for the COMMITs and
    COMMITTED; and with both counts at most [2F] every step leaves the
    state as it was at the start and adds no event. *)
Theorem quorum_witnesses_every_transition admissible s vs :
  Forall quorum_witnessed (steps admissible s vs)
  /\ Forall (fun '(before, v, after) =>
       forall from to,
         EffTransition from to ∈ new_events before after ->
         (to = StatePrepared -> 2 * coreF before.1 < prepares_of after)
         /\ (to = StateCommitted -> 2 * coreF before.1 < commits_of after))
       (steps admissible s vs)
  /\ Forall only_matching_recorded (steps admissible s vs)
  /\ (Z.of_nat (size (prepare_voters s
                      ∪ matching_prepares (the_heap s.2) (subject s.1) vs))
        <= 2 * coreF s.1 ->
      Forall (fun '(before, v, after) =>
                forall from, EffTransition from StatePrepared ∉ new_events before after)
             (steps admissible s vs))
  /\ (Z.of_nat (size (commit_voters s
                      ∪ matching_commits (the_heap s.2) (subject s.1) vs))
        <= 2 * coreF s.1 ->
      Forall (fun '(before, v, after) =>
                forall from, EffTransition from StateCommitted ∉ new_events before after)
             (steps admissible s vs))
  /\ (Z.of_nat (size (prepare_voters s
                      ∪ matching_prepares (the_heap s.2) (subject s.1) vs))
        <= 2 * coreF s.1 ->
      Z.of_nat (size (commit_voters s
                      ∪ matching_commits (the_heap s.2) (subject s.1) vs))
        <= 2 * coreF s.1 ->
      Forall (fun '(before, v, after) =>
                state after.1 = state s.1 /\ new_events before after = [])
             (steps admissible s vs)).
Proof.
  assert (H : Forall quorum_witnessed (steps admissible s vs)).
  { revert s; induction vs as [|v vs IH]; intros s; simpl; [constructor|].
    destruct (feed admissible v s) as [[r s']|] eqn:Hfeed; [|constructor].
    constructor; [eapply feed_quorum_witnessed, Hfeed | apply IH]. }
  split; [exact H|]. split.
  { eapply Forall_impl; [exact H|].
    intros [[before v] after] (Hp & Hc & _) from to Hin. split; intros ->.
    - specialize (Hp from Hin). lia.
    - specialize (Hc from Hin). lia. }
  split; [apply steps_only_matching|].
  assert (HB := steps_records_bounded admissible vs s).
  split; [|split; [|apply steps_below_quorum]].
  - intros Hbound. rewrite Forall_forall in H, HB. apply Forall_forall.
    intros [[before v] after] Hin. specialize (H _ Hin). specialize (HB _ Hin).
    destruct H as (Hp & _). destruct HB as (HF & Hpv & _).
    intros from Hev. specialize (Hp from Hev).
    rewrite prepares_of_voters in Hp. apply subseteq_size in Hpv. lia.
  - intros Hbound. rewrite Forall_forall in H, HB. apply Forall_forall.
    intros [[before v] after] Hin. specialize (H _ Hin). specialize (HB _ Hin).
    destruct H as (_ & Hc & _). destruct HB as (HF & _ & Hcv).
    intros from Hev. specialize (Hc from Hev).
    rewrite commits_of_voters in Hc. apply subseteq_size in Hcv. lia.
Qed.

(** The statement of C4 with [F = 1].  On a run of seven matching votes
    the fourth step, the third distinct PREPARE, moves the replica into
    PREPARED.  On a run of ten votes of which three PREPAREs and three
    COMMITs carry another digest, two validators match on each count:
    all ten steps are taken and the replica stays in PREPREPARED. *)
Lemma quorum_witnesses_every_transition_witness :
  (exists before v after,
     steps demoAdmissible demoVoting demoVotes !! 3%nat = Some (before, v, after)
     /\ EffTransition StatePreprepared StatePrepared ∈ new_events before after
     /\ 2 * coreF before.1 < prepares_of after
     /\ prepares_of after = 3)
  /\ length (steps demoAdmissible demoVoting demoMismatched) = 10%nat
  /\ Forall only_matching_recorded (steps demoAdmissible demoVoting demoMismatched)
  /\ Forall (fun '(before, v, after) =>
               state after.1 = StatePreprepared /\ new_events before after = [])
            (steps demoAdmissible demoVoting demoMismatched).
Proof.
  split.
  { pose proof (proj1 (proj2 (quorum_witnesses_every_transition demoAdmissible demoVoting
                                demoVotes))) as H.
    destruct (steps demoAdmissible demoVoting demoVotes !! 3%nat)
      as [[[before v] after]|] eqn:E; [|vm_compute in E; discriminate].
    pose proof (Forall_lookup_1 _ _ _ _ H E) as Hstep. cbn beta iota in Hstep.
    assert (Hin : EffTransition StatePreprepared StatePrepared ∈ new_events before after).
    { vm_compute in E. injection E as <- <- <-. vm_compute. apply list_elem_of_here. }
    exists before, v, after. split; [reflexivity|]. split; [exact Hin|].
    split; [exact (proj1 (Hstep _ _ Hin) eq_refl)|].
    vm_compute in E. injection E as <- <- <-. reflexivity. }
  split; [vm_compute; reflexivity|].
  pose proof (quorum_witnesses_every_transition demoAdmissible demoVoting demoMismatched)
    as (_ & _ & Hrec & _ & _ & Hquiet).
  split; [exact Hrec|].
  apply Hquiet; vm_compute; discriminate.
Defined.

(** ** The fault bound computed by [New]

    [New] computes [F] in binary64 arithmetic.  The lemmas below follow
    the reference implementation of the Standard Library through the
    conversion, the division by 3, the ceiling and the subtraction. *)

Lemma digits2_pos_bounds p :
  2 ^ (Zpos (digits2_pos p) - 1) <= Zpos p < 2 ^ Zpos (digits2_pos p).
Proof.
  induction p as [p IH|p IH|]; simpl digits2_pos.
  - rewrite Pos2Z.inj_succ.
    replace (Z.succ (Zpos (digits2_pos p)) - 1) with (Z.succ (Zpos (digits2_pos p) - 1)) by lia.
    rewrite !Z.pow_succ_r by lia. lia.
  - rewrite Pos2Z.inj_succ.
    replace (Z.succ (Zpos (digits2_pos p)) - 1) with (Z.succ (Zpos (digits2_pos p) - 1)) by lia.
    rewrite !Z.pow_succ_r by lia. lia.
  - simpl. lia.
Qed.

Lemma digits2_pos_unique p d :
  2 ^ (d - 1) <= Zpos p < 2 ^ d -> Zpos (digits2_pos p) = d.
Proof.
  intros [Hlo Hhi]. pose proof (digits2_pos_bounds p) as [Blo Bhi].
  assert (0 < d).
  { destruct (Z_lt_le_dec 0 d) as [|Hd]; [assumption|].
    exfalso. destruct (Z.eq_dec d 0) as [->|]; [simpl in Hhi; lia|].
    rewrite Z.pow_neg_r in Hhi by lia. lia. }
  destruct (Z_lt_le_dec (Zpos (digits2_pos p)) d) as [Hlt|Hge].
  - exfalso. assert (2 ^ Zpos (digits2_pos p) <= 2 ^ (d - 1)) by (apply Z.pow_le_mono_r; lia). lia.
  - destruct (Z_lt_le_dec d (Zpos (digits2_pos p))) as [Hlt|Hle]; [|lia].
    exfalso. assert (2 ^ d <= 2 ^ (Zpos (digits2_pos p) - 1)) by (apply Z.pow_le_mono_r; lia). lia.
Qed.

Lemma iter_xO_pow p k : Zpos (Pos.iter xO p k) = Zpos p * 2 ^ Zpos k.
Proof.
  induction k as [|k IH] using Pos.peano_ind.
  - simpl. lia.
  - rewrite Pos.iter_succ, Pos2Z.inj_succ, Z.pow_succ_r by lia.
    rewrite Pos2Z.inj_xO, IH. lia.
Qed.

Lemma iter_pos_iter {A} (f : A -> A) p x : SpecFloat.iter_pos f p x = Pos.iter f x p.
Proof.
  revert x; induction p as [p IH|p IH|]; intros x; simpl.
  - rewrite !IH. rewrite <- !Pos.iter_swap. reflexivity.
  - rewrite !IH. reflexivity.
  - reflexivity.
Qed.

Lemma shr_1_nonneg m r s :
  0 <= m ->
  shr_1 {| shr_m := m; shr_r := r; shr_s := s |}
  = {| shr_m := m / 2; shr_r := Z.odd m; shr_s := r || s |}.
Proof.
  intros Hm. destruct m as [|[p|p|]|]; try lia; cbn [shr_1].
  - reflexivity.
  - f_equal. apply Z.div_unique with 1; lia.
  - f_equal. apply Z.div_unique with 0; lia.
  - reflexivity.
Qed.

Lemma iter_shr_exact k c :
  0 <= c ->
  SpecFloat.iter_pos shr_1 k {| shr_m := c * 2 ^ Zpos k; shr_r := false; shr_s := false |}
  = {| shr_m := c; shr_r := false; shr_s := false |}.
Proof.
  intros Hc. rewrite iter_pos_iter. revert c Hc.
  induction k as [|k IH] using Pos.peano_ind; intros c Hc.
  - cbn [Pos.iter]. rewrite shr_1_nonneg by lia.
    replace (c * 2 ^ 1) with (c * 2) by lia.
    rewrite Z.div_mul by lia. rewrite Z.odd_mul. simpl. rewrite andb_false_r. reflexivity.
  - rewrite Pos.iter_succ, Pos2Z.inj_succ, Z.pow_succ_r by lia.
    replace (c * (2 * 2 ^ Zpos k)) with ((c * 2) * 2 ^ Zpos k) by lia.
    rewrite IH by lia. rewrite shr_1_nonneg by lia.
    rewrite Z.div_mul by lia. rewrite Z.odd_mul. simpl. rewrite andb_false_r. reflexivity.
Qed.

Lemma fexp64 e : -1021 <= e -> fexp 53 1024 e = e - 53.
Proof. intros H. unfold fexp, emin. lia. Qed.

Lemma shr_fexp_canonical m e l :
  Zpos (digits2_pos m) = 53 -> -1074 <= e ->
  shr_fexp 53 1024 (Zpos m) e l = (shr_record_of_loc (Zpos m) l, e).
Proof.
  intros Hd He. unfold shr_fexp. cbn [Zdigits2]. rewrite Hd.
  rewrite fexp64 by lia. replace (53 + e - 53 - e) with 0 by lia. reflexivity.
Qed.

(** A mantissa of 53 bits with nothing to round is kept as it is. *)
Lemma binary_round_aux_canonical s m e :
  Zpos (digits2_pos m) = 53 -> -1074 <= e <= 971 ->
  binary_round_aux 53 1024 s (Zpos m) e loc_Exact = S754_finite s m e.
Proof.
  intros Hd He. unfold binary_round_aux.
  rewrite shr_fexp_canonical by (auto; lia). cbn [shr_record_of_loc shr_m loc_of_shr_record round_nearest_even].
  rewrite shr_fexp_canonical by (auto; lia). cbn [shr_record_of_loc shr_m].
  replace (e <=? 1024 - 53) with true by (symmetry; apply Z.leb_le; lia). reflexivity.
Qed.

Lemma pow2_pos k : 0 <= k -> 0 < 2 ^ k.
Proof. intros. apply Z.pow_pos_nonneg; lia. Qed.

(** Rounding [c * 2^t], given by its numerator [p] at exponent [-t], when
    [c] has at most 53 bits: the result is [c] itself, normalised. *)
Lemma binary_round_exact c t k p :
  0 <= t <= 1000 -> 0 <= k <= 52 ->
  2 ^ 52 <= c * 2 ^ k < 2 ^ 53 ->
  Zpos p = c * 2 ^ t ->
  binary_round 53 1024 false p (- t) = S754_finite false (Z.to_pos (c * 2 ^ k)) (- k).
Proof.
  intros Ht Hk Hc Hp.
  pose proof (pow2_pos k ltac:(lia)) as HA. pose proof (pow2_pos t ltac:(lia)) as HB.
  assert (Hd : Zpos (digits2_pos p) = 53 - k + t).
  { apply digits2_pos_unique. rewrite Hp.
    assert (E1 : 2 ^ (53 - k + t - 1) * 2 ^ k = 2 ^ 52 * 2 ^ t).
    { rewrite <- !Z.pow_add_r by lia. f_equal. lia. }
    assert (E2 : 2 ^ (53 - k + t) * 2 ^ k = 2 ^ 53 * 2 ^ t).
    { rewrite <- !Z.pow_add_r by lia. f_equal. lia. }
    split.
    - apply (Z.mul_le_mono_pos_r _ _ (2 ^ k)); [lia|]. rewrite E1. nia.
    - apply (Z.mul_lt_mono_pos_r (2 ^ k)); [lia|]. rewrite E2. nia. }
  assert (Hdk : forall q, Zpos q = c * 2 ^ k -> Zpos (digits2_pos q) = 53).
  { intros q Hq. apply digits2_pos_unique. rewrite Hq. simpl. lia. }
  unfold binary_round. rewrite Hd. rewrite fexp64 by lia.
  replace (53 - k + t + - t - 53) with (- k) by lia.
  unfold shl_align.
  destruct (- k - - t) as [|d|d] eqn:Hsub.
  - assert (t = k) by lia. subst t.
    rewrite binary_round_aux_canonical by (auto; lia).
    rewrite <- Hp. reflexivity.
  - (* t > k: the numerator is shifted right by t - k, exactly *)
    assert (Ht' : t = k + Zpos d) by lia.
    unfold binary_round_aux, shr_fexp. cbn [Zdigits2]. rewrite Hd.
    rewrite fexp64 by lia.
    replace (53 - k + t + - t - 53 - - t) with (Zpos d) by lia.
    cbn [shr shr_record_of_loc].
    assert (Hpd : Zpos p = (c * 2 ^ k) * 2 ^ Zpos d).
    { rewrite Hp, Ht', Z.pow_add_r by lia. lia. }
    rewrite Hpd, iter_shr_exact by lia.
    cbn [shr_m loc_of_shr_record round_nearest_even].
    destruct (c * 2 ^ k) as [|q|q] eqn:Hq; try lia.
    cbn [Zdigits2]. rewrite (Hdk q eq_refl). rewrite fexp64 by lia.
    replace (53 + (- t + Zpos d) - 53 - (- t + Zpos d)) with 0 by lia.
    cbn [shr shr_m].
    replace (- t + Zpos d <=? 1024 - 53) with true by (symmetry; apply Z.leb_le; lia).
    f_equal. lia.
  - (* t < k: the numerator is shifted left by k - t *)
    assert (Hq : Zpos (Pos.iter xO p d) = c * 2 ^ k).
    { rewrite iter_xO_pow, Hp. replace k with (t + Zpos d) by lia.
      rewrite Z.pow_add_r by lia. lia. }
    rewrite binary_round_aux_canonical by (auto; lia).
    rewrite <- Hq. reflexivity.
Qed.

Lemma normal_exponent c :
  0 < c < 2 ^ 53 -> exists k, 0 <= k <= 52 /\ 2 ^ 52 <= c * 2 ^ k < 2 ^ 53.
Proof.
  intros Hc. destruct c as [|p|p]; try lia.
  pose proof (digits2_pos_bounds p) as [Blo Bhi].
  set (d := Zpos (digits2_pos p)) in *.
  assert (Hd1 : 1 <= d) by (unfold d; lia).
  assert (Hd53 : d <= 53).
  { destruct (Z_lt_le_dec 53 d) as [Hgt|]; [|lia]. exfalso.
    assert (2 ^ 53 <= 2 ^ (d - 1)) by (apply Z.pow_le_mono_r; lia). lia. }
  exists (53 - d). split; [lia|].
  assert (E1 : 2 ^ (d - 1) * 2 ^ (53 - d) = 2 ^ 52).
  { rewrite <- Z.pow_add_r by lia. f_equal. lia. }
  assert (E2 : 2 ^ d * 2 ^ (53 - d) = 2 ^ 53).
  { rewrite <- Z.pow_add_r by lia. f_equal. lia. }
  pose proof (pow2_pos (53 - d) ltac:(lia)). nia.
Qed.

Lemma float64_of_int_exact n k :
  0 <= k <= 52 -> 2 ^ 52 <= n * 2 ^ k < 2 ^ 53 ->
  float64_of_int n = S754_finite false (Z.to_pos (n * 2 ^ k)) (- k).
Proof.
  intros Hk Hn. pose proof (pow2_pos k ltac:(lia)).
  destruct n as [|p|p]; try nia.
  unfold float64_of_int, binary_normalize.
  apply (binary_round_exact (Zpos p) 0 k p); try lia.
Qed.

Lemma shl_align_fst mx ex ex' :
  ex' <= ex -> Zpos (fst (shl_align mx ex ex')) = Zpos mx * 2 ^ (ex - ex').
Proof.
  intros H. unfold shl_align. destruct (ex' - ex) as [|d|d] eqn:E; try lia; cbn [fst].
  - replace (ex - ex') with 0 by lia. lia.
  - rewrite iter_xO_pow. f_equal. f_equal. lia.
Qed.

Lemma int64_of_float64_exact c k :
  0 <= k <= 52 -> 0 < c -> c * 2 ^ k < 2 ^ 53 ->
  int64_of_float64 (S754_finite false (Z.to_pos (c * 2 ^ k)) (- k)) = c.
Proof.
  intros Hk Hc Hb. pose proof (pow2_pos k ltac:(lia)) as HP.
  unfold int64_of_float64. cbn [cond_Zopp]. rewrite Z2Pos.id by nia.
  assert (Ht : (if 0 <=? - k then c * 2 ^ k * 2 ^ (- k) else c * 2 ^ k / 2 ^ (- - k)) = c).
  { destruct (Z.leb_spec 0 (- k)).
    - replace k with 0 by lia. simpl. lia.
    - rewrite Z.opp_involutive. apply Z.div_mul. lia. }
  rewrite Ht.
  replace ((- 2 ^ 63 <=? c) && (c <? 2 ^ 63)) with true; [reflexivity|].
  symmetry. apply andb_true_iff. split; [apply Z.leb_le | apply Z.ltb_lt]; nia.
Qed.

(** [float64(c) - 1] and back to an integer, for an integer [c] of at most
    53 bits: no rounding occurs. *)
Lemma sub_one_exact c :
  1 <= c < 2 ^ 53 ->
  int64_of_float64 (float64_sub (float64_of_int c) (float64_of_int 1)) = c - 1.
Proof.
  intros Hc.
  destruct (normal_exponent c ltac:(lia)) as (k & Hk & Hck).
  rewrite (float64_of_int_exact c k Hk Hck).
  change (float64_of_int 1) with (S754_finite false 4503599627370496 (-52)).
  unfold float64_sub, SFsub. cbn [cond_Zopp].
  replace (Z.min (- k) (-52)) with (-52) by lia.
  rewrite shl_align_fst by lia. rewrite Z2Pos.id by lia.
  change (Zpos (fst (shl_align 4503599627370496 (-52) (-52)))) with (2 ^ 52).
  replace (- k - -52) with (52 - k) by lia.
  assert (E : c * 2 ^ k * 2 ^ (52 - k) = c * 2 ^ 52).
  { rewrite <- Z.mul_assoc, <- Z.pow_add_r by lia. do 2 f_equal. lia. }
  rewrite E. replace (c * 2 ^ 52 - 2 ^ 52) with ((c - 1) * 2 ^ 52) by lia.
  destruct (Z.eq_dec c 1) as [->|Hne]; [reflexivity|].
  destruct (normal_exponent (c - 1) ltac:(lia)) as (k' & Hk' & Hck').
  unfold binary_normalize.
  destruct ((c - 1) * 2 ^ 52) as [|p|p] eqn:Hp; try lia.
  pose proof (binary_round_exact (c - 1) 52 k' p ltac:(lia) Hk' Hck' (eq_sym Hp)) as R.
  change (Z.opp 52) with (Zneg 52) in R. rewrite R.
  apply int64_of_float64_exact; lia.
Qed.

Lemma shr_record_of_loc_m m l : shr_m (shr_record_of_loc m l) = m.
Proof. destruct l as [|[]]; reflexivity. Qed.

Lemma loc_of_shr_record_of_loc m l : loc_of_shr_record (shr_record_of_loc m l) = l.
Proof. destruct l as [|[]]; reflexivity. Qed.

Lemma round_nearest_even_bounds m l :
  m <= round_nearest_even m l <= m + 1.
Proof. destruct l as [|[]]; simpl; try destruct (Z.even m); lia. Qed.

Lemma binary_round_aux_tail m e :
  2 ^ 52 <= m < 2 ^ 53 -> -1074 <= e <= 971 ->
  (let '(mrs, e') := shr_fexp 53 1024 m e loc_Exact in
   match shr_m mrs with
   | Z0 => S754_zero false
   | Zpos m' => if e' <=? 1024 - 53 then S754_finite false m' e' else S754_infinity false
   | Zneg _ => S754_nan
   end) = S754_finite false (Z.to_pos m) e.
Proof.
  intros Hm He. destruct m as [|p|p]; try lia.
  rewrite shr_fexp_canonical by (try apply digits2_pos_unique; simpl; lia).
  cbn [shr_record_of_loc shr_m].
  replace (e <=? 1024 - 53) with true by (symmetry; apply Z.leb_le; lia). reflexivity.
Qed.

(** Rounding a quotient of 53 bits. *)
Lemma binary_round_aux_53 q e l :
  2 ^ 52 <= q < 2 ^ 53 -> round_nearest_even q l < 2 ^ 53 -> -1074 <= e <= 971 ->
  binary_round_aux 53 1024 false q e l
  = S754_finite false (Z.to_pos (round_nearest_even q l)) e.
Proof.
  intros Hq Hr He. pose proof (round_nearest_even_bounds q l) as Hb.
  unfold binary_round_aux.
  destruct q as [|p|p] eqn:Eq; try lia.
  rewrite shr_fexp_canonical by (try apply digits2_pos_unique; simpl; lia).
  rewrite shr_record_of_loc_m, loc_of_shr_record_of_loc.
  apply binary_round_aux_tail; lia.
Qed.

(** Rounding a quotient of 54 bits: one bit is shifted out. *)
Lemma binary_round_aux_54 q e l :
  2 ^ 53 <= q < 2 ^ 54 -> -1074 <= e <= 970 ->
  let mrs := shr_1 (shr_record_of_loc q l) in
  let q' := round_nearest_even (shr_m mrs) (loc_of_shr_record mrs) in
  q' < 2 ^ 53 ->
  binary_round_aux 53 1024 false q e l = S754_finite false (Z.to_pos q') (e + 1).
Proof.
  intros Hq He mrs q' Hq'.
  assert (Hm : shr_m mrs = q / 2).
  { unfold mrs. destruct l as [|[]]; cbn [shr_record_of_loc];
      rewrite shr_1_nonneg by lia; reflexivity. }
  pose proof (round_nearest_even_bounds (shr_m mrs) (loc_of_shr_record mrs)) as Hb.
  fold q' in Hb. rewrite Hm in Hb.
  assert (2 ^ 52 <= q / 2) by (apply Z.div_le_lower_bound; lia).
  unfold binary_round_aux.
  destruct q as [|p|p] eqn:Eq; try lia.
  unfold shr_fexp at 1. cbn [Zdigits2].
  rewrite (digits2_pos_unique p 54) by (simpl; lia).
  rewrite fexp64 by lia. replace (54 + e - 53 - e) with 1 by lia.
  cbn [shr SpecFloat.iter_pos]. fold mrs. fold q'.
  apply binary_round_aux_tail; lia.
Qed.

(** The integer division at the heart of [x / 3.0], for a mantissa of 53
    bits: quotient of [4 * m] by 3 and the position of the remainder. *)
Lemma div_three_core m k :
  Zpos (digits2_pos m) = 53 -> 0 <= k <= 52 ->
  SFdiv_core_binary 53 1024 (Zpos m) (- k) 6755399441055744 (-51)
  = (4 * Zpos m / 3, - k - 2, third_loc ((4 * Zpos m) mod 3)).
Proof.
  intros Hd Hk. unfold SFdiv_core_binary. cbn [Zdigits2]. rewrite Hd.
  change (Zpos (digits2_pos 6755399441055744)) with 53.
  rewrite fexp64 by lia.
  replace (Z.min (53 + - k - (53 + -51) - 53) (- k - -51)) with (- k - 2) by lia.
  replace (- k - -51 - (- k - 2)) with 53 by lia.
  rewrite Z.shiftl_mul_pow2 by lia.
  assert (Hnum : Zpos m * 2 ^ 53 = (4 * Zpos m) * 2 ^ 51) by lia.
  assert (Hden : 6755399441055744 = 3 * 2 ^ 51) by reflexivity.
  assert (Hq : Zpos m * 2 ^ 53 / 6755399441055744 = 4 * Zpos m / 3).
  { rewrite Hnum, Hden. apply Z.div_mul_cancel_r; lia. }
  assert (Hr : (Zpos m * 2 ^ 53) mod 6755399441055744 = (4 * Zpos m) mod 3 * 2 ^ 51).
  { rewrite Hnum, Hden. apply Z.mul_mod_distr_r; lia. }
  unfold Z.div, Z.modulo in Hq, Hr.
  destruct (Z.div_eucl (Zpos m * 2 ^ 53) 6755399441055744) as [q r].
  cbn [fst snd] in Hq, Hr. subst q r.
  f_equal.
  pose proof (Z.mod_pos_bound (4 * Zpos m) 3 ltac:(lia)) as Hb.
  fold (Z.modulo (4 * Zpos m) 3).
  set (t := (4 * Zpos m) mod 3) in *.
  assert (Ht : t = 0 \/ t = 1 \/ t = 2) by lia.
  destruct Ht as [-> | [-> | ->]]; reflexivity.
Qed.

Lemma ceil_unique D a C :
  0 < D -> D * (C - 1) < a <= D * C -> - (- a / D) = C.
Proof.
  intros HD Ha. assert (- a / D = - C); [|lia].
  symmetry. apply Z.div_unique with (D * C - a); lia.
Qed.

(** The rounded quotient of 53 bits lies in the unit interval that ends
    at [ceil (n / 3)], on the scale [4 * P]. *)
Lemma third_round_53 n P :
  1 <= n -> 1 <= P ->
  let C := (n + 2) / 3 in
  let q := 4 * (n * P) / 3 in
  let q' := round_nearest_even q (third_loc ((4 * (n * P)) mod 3)) in
  (4 * P) * (C - 1) < q' <= (4 * P) * C.
Proof.
  intros Hn HP C q q'.
  assert (HC : 3 * C - 2 <= n <= 3 * C) by (unfold C; Z.div_mod_to_equations; lia).
  set (Y := P * C). assert (HY : 3 * Y - 2 * P <= n * P <= 3 * Y) by (unfold Y; nia).
  set (M := n * P) in *.
  pose proof (Z.mod_pos_bound (4 * M) 3 ltac:(lia)) as Hb.
  pose proof (Z.div_mod (4 * M) 3 ltac:(lia)) as Hdm. fold q in Hdm.
  unfold q'. set (t := (4 * M) mod 3) in *.
  replace (4 * P * (C - 1)) with (4 * Y - 4 * P) by (unfold Y; lia).
  replace (4 * P * C) with (4 * Y) by (unfold Y; lia).
  assert (Ht : t = 0 \/ t = 1 \/ t = 2) by lia.
  clearbody t q M Y C.
  destruct Ht as [Ht | [Ht | Ht]]; subst t; simpl; lia.
Qed.

(** The same for a quotient of 54 bits, after one bit is shifted out, on
    the scale [2 * P]. *)
Lemma third_round_54 n P :
  1 <= n -> 1 <= P ->
  let C := (n + 2) / 3 in
  let q := 4 * (n * P) / 3 in
  let mrs := shr_1 (shr_record_of_loc q (third_loc ((4 * (n * P)) mod 3))) in
  let q' := round_nearest_even (shr_m mrs) (loc_of_shr_record mrs) in
  (2 * P) * (C - 1) < q' <= (2 * P) * C.
Proof.
  intros Hn HP C q mrs q'.
  assert (HC : 3 * C - 2 <= n <= 3 * C) by (unfold C; Z.div_mod_to_equations; lia).
  set (Y := P * C). assert (HY : 3 * Y - 2 * P <= n * P <= 3 * Y) by (unfold Y; nia).
  set (M := n * P) in *.
  pose proof (Z.mod_pos_bound (4 * M) 3 ltac:(lia)) as Hb.
  pose proof (Z.div_mod (4 * M) 3 ltac:(lia)) as Hdm. fold q in Hdm.
  assert (Hq0 : 0 <= q) by (unfold q; apply Z.div_pos; nia).
  replace (2 * P * (C - 1)) with (2 * Y - 2 * P) by (unfold Y; lia).
  replace (2 * P * C) with (2 * Y) by (unfold Y; lia).
  pose proof (Z.div_mod q 2 ltac:(lia)) as Hh.
  pose proof (Z.mod_pos_bound q 2 ltac:(lia)) as Hhb.
  assert (Hodd : Z.odd q = true -> q mod 2 = 1).
  { intros Ho. rewrite Zmod_odd, Ho. reflexivity. }
  assert (Heven : Z.odd q = false -> q mod 2 = 0).
  { intros Ho. rewrite Zmod_odd, Ho. reflexivity. }
  unfold q', mrs. set (t := (4 * M) mod 3) in *.
  assert (Ht : t = 0 \/ t = 1 \/ t = 2) by lia.
  clearbody t q M Y C.
  destruct Ht as [Ht | [Ht | Ht]]; subst t;
    [change (third_loc 0) with loc_Exact
    |change (third_loc 1) with (loc_Inexact Lt)
    |change (third_loc 2) with (loc_Inexact Gt)];
    cbn [shr_record_of_loc]; rewrite shr_1_nonneg by lia;
    cbn [shr_m loc_of_shr_record orb];
    destruct (Z.odd q) eqn:Ho; cbn [loc_of_shr_record round_nearest_even];
    try (specialize (Hodd eq_refl)); try (specialize (Heven eq_refl));
    try destruct (Z.even (q / 2)); lia.
Qed.

Lemma math_Ceil_finite m e D C :
  e < 0 -> 0 < m -> 2 ^ (- e) = D -> 0 < D -> D * (C - 1) < m <= D * C -> 1 <= C ->
  math_Ceil (S754_finite false (Z.to_pos m) e) = float64_of_int C.
Proof.
  intros He Hm HD HDpos HC HC1. unfold math_Ceil.
  replace (0 <=? e) with false by (symmetry; apply Z.leb_gt; lia).
  cbn [cond_Zopp]. rewrite Z2Pos.id by lia. rewrite HD.
  rewrite (ceil_unique D m C HDpos HC).
  replace (C =? 0) with false by (symmetry; apply Z.eqb_neq; lia).
  reflexivity.
Qed.

(** [math.Ceil(float64(n) / 3)] is the float of [ceil (n / 3)], for every
    [n] that [float64] represents with a mantissa of 53 bits. *)
Lemma ceil_third_exact n k :
  1 <= n -> 0 <= k <= 52 -> 2 ^ 52 <= n * 2 ^ k < 2 ^ 53 ->
  math_Ceil (float64_div (float64_of_int n) (float64_of_int 3))
  = float64_of_int ((n + 2) / 3).
Proof.
  intros Hn Hk HM. pose proof (pow2_pos k ltac:(lia)) as HP.
  rewrite (float64_of_int_exact n k Hk HM).
  change (float64_of_int 3) with (S754_finite false 6755399441055744 (-51)).
  unfold float64_div, SFdiv. cbn [xorb].
  rewrite div_three_core
    by (try (apply digits2_pos_unique; rewrite Z2Pos.id by lia; simpl); lia).
  rewrite Z2Pos.id by lia.
  assert (HC1 : 1 <= (n + 2) / 3) by (Z.div_mod_to_equations; lia).
  pose proof (Z.mod_pos_bound (4 * (n * 2 ^ k)) 3 ltac:(lia)) as Hb.
  pose proof (Z.div_mod (4 * (n * 2 ^ k)) 3 ltac:(lia)) as Hdm.
  destruct (Z_lt_le_dec (4 * (n * 2 ^ k) / 3) (2 ^ 53)) as [Hlt|Hge].
  - pose proof (third_round_53 n (2 ^ k) Hn ltac:(lia)) as Hr. cbv zeta in Hr.
    assert (Hq' : round_nearest_even (4 * (n * 2 ^ k) / 3)
                    (third_loc ((4 * (n * 2 ^ k)) mod 3)) < 2 ^ 53).
    { set (t := (4 * (n * 2 ^ k)) mod 3) in *.
      set (q := 4 * (n * 2 ^ k) / 3) in *.
      assert (Ht : t = 0 \/ t = 1 \/ t = 2) by lia.
      clearbody t q.
      destruct Ht as [Ht | [Ht | Ht]]; subst t; simpl; lia. }
    rewrite binary_round_aux_53 by lia.
    apply (math_Ceil_finite _ _ (4 * 2 ^ k)); try lia.
    + pose proof (round_nearest_even_bounds (4 * (n * 2 ^ k) / 3)
                    (third_loc ((4 * (n * 2 ^ k)) mod 3))). lia.
    + replace (- (- k - 2)) with (2 + k) by lia. rewrite Z.pow_add_r by lia. lia.
  - pose proof (third_round_54 n (2 ^ k) Hn ltac:(lia)) as Hr. cbv zeta in Hr.
    set (q := 4 * (n * 2 ^ k) / 3) in *.
    set (mrs := shr_1 (shr_record_of_loc q (third_loc ((4 * (n * 2 ^ k)) mod 3)))) in *.
    assert (Hm : shr_m mrs = q / 2).
    { unfold mrs. destruct (third_loc _) as [|[]]; cbn [shr_record_of_loc];
        rewrite shr_1_nonneg by lia; reflexivity. }
    pose proof (round_nearest_even_bounds (shr_m mrs) (loc_of_shr_record mrs)) as Hbd.
    rewrite Hm in Hbd.
    assert (Hh : 2 * (q / 2) <= q) by (apply Z.mul_div_le; lia).
    assert (Hh2 : 2 ^ 52 <= q / 2) by (apply Z.div_le_lower_bound; lia).
    pose proof (binary_round_aux_54 q (- k - 2) (third_loc ((4 * (n * 2 ^ k)) mod 3))
                  ltac:(lia) ltac:(lia)) as R.
    cbv zeta in R. fold mrs in R.
    assert (Hq' : round_nearest_even (shr_m mrs) (loc_of_shr_record mrs) < 2 ^ 53).
    { rewrite Hm. clear R Hr. clearbody mrs q. lia. }
    rewrite R by exact Hq'.
    assert (Hpos : 0 < round_nearest_even (shr_m mrs) (loc_of_shr_record mrs)).
    { rewrite Hm. clear R Hr. clearbody mrs q. lia. }
    apply (math_Ceil_finite _ _ (2 * 2 ^ k)); try lia.
    replace (- (- k - 2 + 1)) with (1 + k) by lia. rewrite Z.pow_add_r by lia. lia.
Qed.

Lemma ceil_third_alt n : ceil_third n = (n + 2) / 3.
Proof. unfold ceil_third. Z.div_mod_to_equations. lia. Qed.

(** On every integer from 1 to [2^53] the floating-point computation of
    [New] yields [ceil (n / 3) - 1]. *)
Lemma computeF_exact n :
  1 <= n <= 2 ^ 53 -> computeF n = ceil_third n - 1.
Proof.
  intros Hn. rewrite ceil_third_alt.
  destruct (Z.eq_dec n (2 ^ 53)) as [->|Hne]; [vm_compute; reflexivity|].
  destruct (normal_exponent n ltac:(lia)) as (k & Hk & HM).
  unfold computeF. rewrite (ceil_third_exact n k) by lia.
  apply sub_one_exact. Z.div_mod_to_equations. lia.
Qed.

Lemma int64_small n : - 2 ^ 63 <= n < 2 ^ 63 -> int64 n = n.
Proof.
  intros H. unfold int64. rewrite Z.mod_small by lia. lia.
Qed.

(** C7, as the specification states it, fails on the code: with
    [N = 2^53 + 7] validators, [float64(N)] is [2^53 + 8], the quotient
    rounds to a half above [N / 3], and [New] stores an [F] that is one
    more than [ceil (N / 3) - 1] and for which [N < 3F + 1]. *)
Lemma New_fault_bound_counterexample :
  let c := (New hugeHost demoWorld).1 in
  coreN c = 2 ^ 53 + 7
  /\ coreF c = 3002399751580333
  /\ ceil_third (coreN c) - 1 = 3002399751580332
  /\ coreF c <> ceil_third (coreN c) - 1
  /\ ~ (coreN c >= 3 * coreF c + 1).
Proof.
  cbv zeta.
  assert (HN : coreN (New hugeHost demoWorld).1 = 2 ^ 53 + 7) by (vm_compute; reflexivity).
  assert (HF : coreF (New hugeHost demoWorld).1 = 3002399751580333)
    by (vm_compute; reflexivity).
  rewrite HN, HF. split; [reflexivity|]. split; [reflexivity|].
  split; [vm_compute; reflexivity|]. split; [vm_compute; discriminate | lia].
Qed.

(** C7, amended.  At construction, for every validator set size [N] with
    [1 <= N <= 2^53], the core stores [N] and computes
    [F = ceil (N / 3) - 1], and this [F] satisfies [N >= 3F + 1]. *)
Theorem New_fault_bound backend w :
  let n := ValidatorSet_Size (Backend_Validators backend) in
  let c := (New backend w).1 in
  1 <= n <= 2 ^ 53 ->
  coreN c = n
  /\ coreF c = ceil_third n - 1
  /\ coreN c >= 3 * coreF c + 1.
Proof.
  intros n c Hn.
  assert (HN : coreN c = n) by (apply int64_small; unfold n in *; lia).
  assert (HF : coreF c = ceil_third n - 1).
  { change (coreF c) with (computeF (int64 n)).
    rewrite int64_small by lia. apply computeF_exact, Hn. }
  split; [exact HN|]. split; [exact HF|].
  rewrite HN, HF, ceil_third_alt. Z.div_mod_to_equations. lia.
Qed.

(** The amended C7 for the four validators of the demo host. *)
Lemma New_fault_bound_witness :
  coreN (New (demoHost true) demoWorld).1 = 4
  /\ coreF (New (demoHost true) demoWorld).1 = ceil_third 4 - 1
  /\ coreN (New (demoHost true) demoWorld).1
     >= 3 * coreF (New (demoHost true) demoWorld).1 + 1.
Proof.
  apply (New_fault_bound (demoHost true) demoWorld). simpl. lia.
Defined.

(** * Further properties of [core.go] *)

(** ** [nextSequence], [nextViewNumber] and [makeProposal] *)

(** X1. [nextViewNumber] is the mirror image of [nextSequence]: the view it
    returns carries the core's own sequence pointer and a fresh cell that
    holds the view number plus one; the core, the trace and every cell
    allocated before, the core's view number included, are unchanged. *)
Theorem nextViewNumber_fresh_cell c w l v :
  viewNumber c = Some l ->
  the_heap w !! l = Some v ->
  exists view w',
    nextViewNumber (c, w) = Some (view, (c, w'))
    /\ View_Sequence view = sequence c
    /\ View_ViewNumber view = Some (length (the_heap w))
    /\ View_ViewNumber view <> viewNumber c
    /\ load (the_heap w') (View_ViewNumber view) = Some (v + 1)
    /\ load (the_heap w') (viewNumber c) = Some v
    /\ trace w' = trace w
    /\ (forall p, valid (the_heap w) p -> load (the_heap w') p = load (the_heap w) p).
Proof.
  intros Hvn Hl.
  unfold nextViewNumber, mbind, go_bind, self, bigNewAdd, mret, go_ret.
  cbn [fst snd]. rewrite Hvn. unfold load at 1. rewrite Hl. cbn [default alloc].
  eexists _, _. split; [reflexivity|].
  cbn [View_Sequence View_ViewNumber the_heap trace].
  split; [reflexivity|]. split; [reflexivity|].
  split; [intros [= E]; apply lookup_lt_Some in Hl; lia|].
  split; [apply load_alloc_new|].
  split; [unfold load; rewrite (lookup_alloc_old _ _ _ _ Hl); reflexivity|].
  split; [reflexivity|]. intros p Hp. apply load_alloc_old, Hp.
Qed.

(** The statement on the demo replica, whose view number is cell 3. *)
Lemma nextViewNumber_fresh_cell_witness :
  exists view w',
    nextViewNumber (demoConfig true) = Some (view, ((demoConfig true).1, w'))
    /\ View_Sequence view = sequence (demoConfig true).1
    /\ View_ViewNumber view = Some (length (the_heap (demoConfig true).2))
    /\ View_ViewNumber view <> viewNumber (demoConfig true).1
    /\ load (the_heap w') (View_ViewNumber view) = Some (0 + 1)
    /\ load (the_heap w') (viewNumber (demoConfig true).1) = Some 0
    /\ trace w' = trace (demoConfig true).2
    /\ (forall p, valid (the_heap (demoConfig true).2) p ->
                  load (the_heap w') p = load (the_heap (demoConfig true).2) p).
Proof.
  apply (nextViewNumber_fresh_cell (demoConfig true).1 (demoConfig true).2 3%nat 0);
    reflexivity.
Defined.

(** X2. [nextSequence] and [nextViewNumber] panic exactly on a core whose
    [sequence], respectively [viewNumber], is the nil pointer: neither
    method tests the pointer before [Add] dereferences it. *)
Theorem next_view_panics_iff_nil c w :
  (nextSequence (c, w) = None <-> sequence c = None)
  /\ (nextViewNumber (c, w) = None <-> viewNumber c = None).
Proof.
  unfold nextSequence, nextViewNumber, mbind, go_bind, self, bigNewAdd, mret, go_ret.
  cbn [fst snd].
  split.
  - destruct (sequence c) as [l|]; cbn [load alloc]; split; intros H;
      try discriminate; reflexivity.
  - destruct (viewNumber c) as [l|]; cbn [load alloc]; split; intros H;
      try discriminate; reflexivity.
Qed.

Lemma nextSequence_run c w l s :
  sequence c = Some l ->
  the_heap w !! l = Some s ->
  nextSequence (c, w)
  = Some ({| View_ViewNumber := viewNumber c;
             View_Sequence := Some (length (the_heap w)) |},
          (c, {| the_heap := the_heap w ++ [s + 1]; trace := trace w |})).
Proof.
  intros Hseq Hl.
  unfold nextSequence, mbind, go_bind, self, bigNewAdd, mret, go_ret.
  cbn [fst snd]. rewrite Hseq. unfold load. rewrite Hl. reflexivity.
Qed.

(** X3. [nextSequence] is not a counter: it does not store its result in the
    core, so two calls in a row return the same number, the sequence
    plus one, in two distinct cells, with the same view-number pointer. *)
Theorem nextSequence_twice_same_number c w l s :
  sequence c = Some l ->
  the_heap w !! l = Some s ->
  exists v1 w1 v2 w2,
    nextSequence (c, w) = Some (v1, (c, w1))
    /\ nextSequence (c, w1) = Some (v2, (c, w2))
    /\ load (the_heap w2) (View_Sequence v1) = Some (s + 1)
    /\ load (the_heap w2) (View_Sequence v2) = Some (s + 1)
    /\ View_Sequence v1 <> View_Sequence v2
    /\ View_ViewNumber v1 = View_ViewNumber v2
    /\ load (the_heap w2) (sequence c) = Some s.
Proof.
  intros Hseq Hl.
  eexists _, _, _, _.
  split; [apply (nextSequence_run c w l s Hseq Hl)|].
  split; [apply (nextSequence_run c _ l s Hseq); cbn [the_heap];
          apply lookup_alloc_old, Hl|].
  cbn [View_Sequence View_ViewNumber the_heap].
  split.
  { rewrite load_alloc_old by (simpl; rewrite length_app; simpl; lia).
    apply load_alloc_new. }
  split; [apply load_alloc_new|].
  split; [rewrite length_app; simpl; intros [= E]; lia|].
  split; [reflexivity|].
  rewrite Hseq. unfold load.
  rewrite (lookup_alloc_old _ _ _ _ (lookup_alloc_old _ _ _ _ Hl)).
  reflexivity.
Qed.

(** The statement on the demo replica, whose sequence is cell 2. *)
Lemma nextSequence_twice_same_number_witness :
  exists v1 w1 v2 w2,
    nextSequence (demoConfig true) = Some (v1, ((demoConfig true).1, w1))
    /\ nextSequence ((demoConfig true).1, w1) = Some (v2, ((demoConfig true).1, w2))
    /\ load (the_heap w2) (View_Sequence v1) = Some (0 + 1)
    /\ load (the_heap w2) (View_Sequence v2) = Some (0 + 1)
    /\ View_Sequence v1 <> View_Sequence v2
    /\ View_ViewNumber v1 = View_ViewNumber v2
    /\ load (the_heap w2) (sequence (demoConfig true).1) = Some 0.
Proof.
  apply (nextSequence_twice_same_number (demoConfig true).1 (demoConfig true).2 2%nat 0);
    reflexivity.
Defined.

(** X4. [makeProposal] panics exactly on a nil request, whatever the core and
    the sequence pointer are (the pointer is stored, not dereferenced);
    when it returns, the core, the store and the trace are unchanged and
    the header carries the given pointer itself. *)
Theorem makeProposal_panics_iff_nil_request seq request c w :
  (makeProposal seq request (c, w) = None <-> request = None)
  /\ (forall p s, makeProposal seq request (c, w) = Some (p, s) ->
        s = (c, w)
        /\ exists h, Proposal_Header p = Some h /\ Header_Sequence h = seq).
Proof.
  destruct request as [r|].
  - rewrite makeProposal_run. split; [split; discriminate|].
    intros p s [= <- <-]. split; [reflexivity|]. eexists. split; reflexivity.
  - split; [split; reflexivity|]. intros p s H. discriminate H.
Qed.

(** ** [commit] and [setState], continued *)

Lemma commit_panics_nil admissible c w :
  current c = None -> commit admissible (c, w) = None.
Proof.
  intros Hcur.
  destruct (setState_run admissible StateCommitted c w) as (b1 & pre & Hrun1 & _).
  unfold commit. unfold mbind at 1. unfold go_bind at 1. rewrite Hrun1.
  unfold mbind, go_bind, self, deref, panic. cbn [fst snd].
  change (current (set_backlogs b1 (set_state StateCommitted c))) with (current c).
  rewrite Hcur. reflexivity.
Qed.

Lemma filter_host_commit_none l :
  Forall (fun e => is_host_commit e = false) l -> List.filter is_host_commit l = [].
Proof.
  induction 1 as [|e l He _ IH]; simpl; [reflexivity|]. rewrite He. exact IH.
Qed.

Lemma filter_host_commit_posts l :
  Forall (fun e => is_post e = true) l -> List.filter is_host_commit l = [].
Proof.
  induction 1 as [|e l He _ IH]; simpl; [reflexivity|].
  destruct e; simpl in *; try discriminate. exact IH.
Qed.

(** X5. [commit] returns exactly when the core has a current log and that log
    holds a pre-prepare; on a nil [current] or a nil [Preprepare] it
    panics, as no statement of the method tests either pointer. *)
Theorem commit_returns_iff_preprepare admissible c w :
  (exists s, commit admissible (c, w) = Some (tt, s))
  <-> (exists cur pp, current c = Some cur /\ Log_Preprepare cur = Some pp).
Proof.
  split.
  - intros (s & Hs). destruct (current c) as [cur|] eqn:Hcur.
    + destruct (Log_Preprepare cur) as [pp|] eqn:Hpp; [eauto|].
      rewrite (commit_panics admissible c w cur Hcur Hpp) in Hs. discriminate.
    + rewrite (commit_panics_nil admissible c w Hcur) in Hs. discriminate.
  - intros (cur & pp & Hcur & Hpp).
    destruct (commit_run admissible c w cur pp Hcur Hpp) as (c' & pre & posts & Hrun & _).
    eexists. exact Hrun.
Qed.

(** X6. A core fresh from [New] cannot commit: its [current] is the zero
    value of the field, nil, so [commit] panics whatever the host is. *)
Theorem New_cannot_commit admissible backend w :
  commit admissible (New backend w) = None.
Proof.
  unfold New. cbn [alloc]. apply commit_panics_nil. reflexivity.
Qed.

(** X7. [commit] has no guard against repetition: run twice in a row on the
    same current log it appends that log twice and hands the proposal
    to the host twice, and again ends in ACCEPT_REQUEST with the view
    of the log. *)
Theorem commit_twice_logs_twice admissible c w cur pp :
  current c = Some cur ->
  Log_Preprepare cur = Some pp ->
  exists c1 w1 c2 w2,
    commit admissible (c, w) = Some (tt, (c1, w1))
    /\ commit admissible (c1, w1) = Some (tt, (c2, w2))
    /\ consensusLogs c2 = consensusLogs c ++ [cur; cur]
    /\ List.filter is_host_commit (new_events (c, w) (c2, w2))
       = [EffCommit (Preprepare_Proposal pp) StateCommitted
            (Backend_Commit (backend c) (Preprepare_Proposal pp));
          EffCommit (Preprepare_Proposal pp) StateCommitted
            (Backend_Commit (backend c) (Preprepare_Proposal pp))]
    /\ state c2 = StateAcceptRequest
    /\ viewNumber c2 = Log_ViewNumber cur
    /\ sequence c2 = Log_Sequence cur
    /\ the_heap w2 = the_heap w.
Proof.
  intros Hcur Hpp.
  destruct (commit_run admissible c w cur pp Hcur Hpp)
    as (c1 & pre1 & posts1 & Hrun1 & _ & _ & _ & _ & Hlogs1 & Hcur1 & Hb1 & _ & _
        & Hpre1 & Hposts1 & _).
  match type of Hrun1 with _ = Some (_, (_, ?x)) => set (w1 := x) in * end.
  destruct (commit_run admissible c1 w1 cur pp Hcur1 Hpp)
    as (c2 & pre2 & posts2 & Hrun2 & Hst2 & Hvn2 & Hsq2 & _ & Hlogs2 & _ & _ & _ & _
        & Hpre2 & Hposts2 & _).
  eexists c1, _, c2, _. split; [exact Hrun1|]. split; [exact Hrun2|].
  split; [rewrite Hlogs2, Hlogs1, <- app_assoc; reflexivity|].
  split.
  { unfold new_events, w1. cbn [fst snd the_heap trace].
    rewrite <- app_assoc, drop_app_length.
    rewrite !List.filter_app. cbn [List.filter is_host_commit].
    rewrite ?List.filter_app. cbn [List.filter is_host_commit].
    rewrite (filter_host_commit_none _ Hpre1), (filter_host_commit_none _ Hpre2),
      (filter_host_commit_posts _ Hposts1), (filter_host_commit_posts _ Hposts2).
    rewrite Hb1. reflexivity. }
  auto.
Qed.

(** The statement on the demo replica, whose current log is [demoLog]. *)
Lemma commit_twice_logs_twice_witness :
  exists c1 w1 c2 w2,
    commit demoAdmissible (demoConfig true) = Some (tt, (c1, w1))
    /\ commit demoAdmissible (c1, w1) = Some (tt, (c2, w2))
    /\ consensusLogs c2 = consensusLogs (demoConfig true).1 ++ [demoLog; demoLog]
    /\ List.filter is_host_commit (new_events (demoConfig true) (c2, w2))
       = [EffCommit (Some demoProposal) StateCommitted true;
          EffCommit (Some demoProposal) StateCommitted true]
    /\ state c2 = StateAcceptRequest
    /\ viewNumber c2 = Log_ViewNumber demoLog
    /\ sequence c2 = Log_Sequence demoLog
    /\ the_heap w2 = the_heap (demoConfig true).2.
Proof.
  apply (commit_twice_logs_twice demoAdmissible
           (demoConfig true).1 (demoConfig true).2 demoLog demoPreprepare);
    reflexivity.
Defined.

(** X9. [setState] is idempotent: after [setState st] the state is [st], and
    a second [setState st] returns the configuration as it is, without a
    transition, a drain of the backlog or any other event. *)
Theorem setState_idempotent admissible st c w :
  exists s,
    setState admissible st (c, w) = Some (tt, s)
    /\ state s.1 = st
    /\ setState admissible st s = Some (tt, s).
Proof.
  destruct (setState_run admissible st c w) as (b' & evs & Hrun & _).
  eexists. split; [exact Hrun|]. split; [reflexivity|].
  apply setState_same. reflexivity.
Qed.

(** ** [New], continued *)

(** X10. Two cores built one after the other share no integer: the four cells
    of their sequences and view numbers are pairwise distinct and hold 0,
    every cell allocated before keeps its content, and each construction
    subscribes to the events once. *)
Theorem New_twice_distinct_cells b1 b2 w :
  let s1 := New b1 w in
  let s2 := New b2 s1.2 in
  exists l1 l2 l3 l4,
    sequence s1.1 = Some l1 /\ viewNumber s1.1 = Some l2
    /\ sequence s2.1 = Some l3 /\ viewNumber s2.1 = Some l4
    /\ NoDup [l1; l2; l3; l4]
    /\ Forall (fun l => load (the_heap s2.2) (Some l) = Some 0) [l1; l2; l3; l4]
    /\ (forall p, valid (the_heap w) p -> load (the_heap s2.2) p = load (the_heap w) p)
    /\ trace s2.2 = trace w ++ [EffSubscribe; EffSubscribe].
Proof.
  intros s1 s2. unfold s2, s1, New. cbn [alloc fst snd the_heap trace sequence viewNumber].
  eexists _, _, _, _. repeat (split; [reflexivity|]).
  rewrite !length_app. cbn [length].
  set (n := length (the_heap w)).
  split.
  { repeat constructor; rewrite ?elem_of_cons, ?elem_of_nil; lia. }
  split.
  { repeat constructor; unfold load; f_equal.
    - rewrite !lookup_app_l by (rewrite ?length_app; simpl; lia).
      rewrite lookup_app_r by lia. fold n. replace (n - n)%nat with 0%nat by lia.
      reflexivity.
    - rewrite !lookup_app_l by (rewrite ?length_app; simpl; lia).
      rewrite lookup_app_r by (rewrite ?length_app; simpl; lia).
      rewrite length_app. simpl. fold n.
      replace (n + 1 - (n + 1))%nat with 0%nat by lia. reflexivity.
    - rewrite lookup_app_l by (rewrite ?length_app; simpl; lia).
      rewrite lookup_app_r by (rewrite ?length_app; simpl; lia).
      rewrite !length_app. simpl. fold n.
      replace (n + 1 + 1 - (n + 1 + 1))%nat with 0%nat by lia. reflexivity.
    - rewrite lookup_app_r by (rewrite ?length_app; simpl; lia).
      rewrite !length_app. simpl. fold n.
      replace (n + 1 + 1 + 1 - (n + 1 + 1 + 1))%nat with 0%nat by lia. reflexivity. }
  split.
  { intros [l|] Hp; [|reflexivity]. simpl in Hp. unfold load.
    rewrite !lookup_app_l by (rewrite ?length_app; simpl; lia). reflexivity. }
  rewrite <- app_assoc. reflexivity.
Qed.

(** X11. The first proposal of a fresh core: [nextSequence] followed by
    [makeProposal] yields a proposal of sequence number 1 in a view of
    view number 0 that carries the payload of the request, and leaves
    the core as [New] built it. *)
Theorem New_first_proposal backend w r :
  exists view w1 p h,
    nextSequence (New backend w) = Some (view, ((New backend w).1, w1))
    /\ makeProposal (View_Sequence view) (Some r) ((New backend w).1, w1)
       = Some (p, ((New backend w).1, w1))
    /\ Proposal_Header p = Some h
    /\ load (the_heap w1) (Header_Sequence h) = Some 1
    /\ load (the_heap w1) (View_ViewNumber view) = Some 0
    /\ load (the_heap w1) (sequence (New backend w).1) = Some 0
    /\ Proposal_Payload p = Request_Payload r.
Proof.
  unfold New. cbn [alloc fst snd].
  eexists _, _, _, _.
  split.
  { eapply nextSequence_run with (s := 0); [reflexivity|].
    cbn [the_heap]. rewrite lookup_app_l by (rewrite length_app; simpl; lia).
    rewrite lookup_app_r by lia.
    replace (length (the_heap w) - length (the_heap w))%nat with 0%nat by lia.
    reflexivity. }
  split; [apply makeProposal_run|].
  cbn [Proposal_Header Proposal_Payload Header_Sequence View_ViewNumber the_heap
       sequence viewNumber].
  split; [reflexivity|].
  split; [apply load_alloc_new|].
  split.
  { rewrite load_alloc_old by (simpl; rewrite !length_app; simpl; lia).
    rewrite length_app. simpl.
    replace (length (the_heap w) + 1)%nat with (length (the_heap w ++ [0]))
      by (rewrite length_app; reflexivity).
    apply load_alloc_new. }
  split; [|reflexivity].
  rewrite !load_alloc_old by (simpl; rewrite ?length_app; simpl; lia).
  apply load_alloc_new.
Qed.

(** X12. For every validator set size [N] from 0 to [2^53] the [F] that [New]
    computes is the largest with [3F + 1 <= N] when [N >= 1]: it
    satisfies [3F + 1 <= N <= 3F + 3]; it is negative exactly for the
    empty validator set, where it is -1. *)
Theorem New_fault_bound_tight backend w :
  let n := ValidatorSet_Size (Backend_Validators backend) in
  let c := (New backend w).1 in
  0 <= n <= 2 ^ 53 ->
  3 * coreF c + 1 <= coreN c <= 3 * coreF c + 3
  /\ (coreF c < 0 <-> n = 0)
  /\ (n = 0 -> coreF c = -1).
Proof.
  intros n c Hn.
  assert (HN : coreN c = n) by (apply int64_small; unfold n in *; lia).
  assert (HF : coreF c = (n + 2) / 3 - 1).
  { change (coreF c) with (computeF (int64 n)).
    rewrite int64_small by lia.
    destruct (Z.eq_dec n 0) as [->|Hne]; [vm_compute; reflexivity|].
    rewrite computeF_exact by lia. rewrite ceil_third_alt. reflexivity. }
  rewrite HN, HF. Z.div_mod_to_equations. lia.
Qed.

(** The statement for the four validators of the demo host. *)
Lemma New_fault_bound_tight_witness :
  3 * coreF (New (demoHost true) demoWorld).1 + 1
    <= coreN (New (demoHost true) demoWorld).1
    <= 3 * coreF (New (demoHost true) demoWorld).1 + 3
  /\ (coreF (New (demoHost true) demoWorld).1 < 0
      <-> ValidatorSet_Size (Backend_Validators (demoHost true)) = 0)
  /\ (ValidatorSet_Size (Backend_Validators (demoHost true)) = 0
      -> coreF (New (demoHost true) demoWorld).1 = -1).
Proof.
  apply (New_fault_bound_tight (demoHost true) demoWorld). simpl. lia.
Defined.

(** X13. For every validator set size [N] from 1 to [2^53], a quorum of
    [2F + 1] validators exists ([2F + 1 <= N]), and two quorums are sure
    to share at least [F + 1] validators, that is at least one that is
    not faulty, exactly when [N = 3F + 1]: for the sizes [3F + 2] and
    [3F + 3], which [New] accepts with the same [F], the counting bound
    [2 (2F + 1) - N] falls short of [F + 1]. *)
Theorem New_quorum_intersection backend w :
  let n := ValidatorSet_Size (Backend_Validators backend) in
  let c := (New backend w).1 in
  1 <= n <= 2 ^ 53 ->
  0 <= coreF c
  /\ 2 * coreF c + 1 <= coreN c
  /\ (coreF c + 1 <= 2 * (2 * coreF c + 1) - coreN c <-> coreN c = 3 * coreF c + 1).
Proof.
  intros n c Hn.
  assert (HN : coreN c = n) by (apply int64_small; unfold n in *; lia).
  assert (HF : coreF c = (n + 2) / 3 - 1).
  { change (coreF c) with (computeF (int64 n)).
    rewrite int64_small by lia.
    rewrite computeF_exact by lia. rewrite ceil_third_alt. reflexivity. }
  rewrite HN, HF. Z.div_mod_to_equations. lia.
Qed.

(** The statement for the four validators of the demo host. *)
Lemma New_quorum_intersection_witness :
  0 <= coreF (New (demoHost true) demoWorld).1
  /\ 2 * coreF (New (demoHost true) demoWorld).1 + 1
     <= coreN (New (demoHost true) demoWorld).1
  /\ (coreF (New (demoHost true) demoWorld).1 + 1
      <= 2 * (2 * coreF (New (demoHost true) demoWorld).1 + 1)
         - coreN (New (demoHost true) demoWorld).1
      <-> coreN (New (demoHost true) demoWorld).1
          = 3 * coreF (New (demoHost true) demoWorld).1 + 1).
Proof.
  apply (New_quorum_intersection (demoHost true) demoWorld). simpl. lia.
Defined.

(** * The test of [verifyCommit] *)

Lemma extends_refl h : extends h h.
Proof. intros p Hp. auto. Qed.

Lemma extends_trans h1 h2 h3 : extends h1 h2 -> extends h2 h3 -> extends h1 h3.
Proof.
  intros H12 H23 p Hp. destruct (H12 p Hp) as [Hv Hl].
  destruct (H23 p Hv) as [Hv' Hl']. split; [exact Hv' | congruence].
Qed.

Lemma extends_alloc h z : extends h (h ++ [z]).
Proof.
  intros p Hp. split; [|apply load_alloc_old, Hp].
  destruct p as [l|]; simpl in *; [|exact I]. rewrite length_app. simpl. lia.
Qed.

Lemma subject_fields_extends h h' s :
  extends h h' -> valid_subject h s ->
  valid_subject h' s /\ subject_fields h' s = subject_fields h s.
Proof.
  unfold valid_subject, subject_fields. intros He Hv.
  destruct (Subject_View s) as [v|]; [|auto].
  destruct Hv as [Hv1 Hv2].
  destruct (He _ Hv1) as [Hv1' ->]. destruct (He _ Hv2) as [Hv2' ->]. auto.
Qed.

Lemma case_reads_extends h h' t expected cvn csq svn ssq :
  extends h h' ->
  case_reads h t expected cvn csq svn ssq ->
  case_reads h' t expected cvn csq svn ssq.
Proof.
  intros He (Hexp & a & b & Ha & Hb & Hfa & Hfb & Hva & Hvb).
  destruct (subject_fields_extends h h' a He Hva) as [Hva' Hfa'].
  destruct (subject_fields_extends h h' b He Hvb) as [Hvb' Hfb'].
  split; [exact Hexp|]. exists a, b. rewrite Hfa', Hfb'. auto 10.
Qed.

Lemma newBig_spec z c w :
  exists p w',
    newBig z (c, w) = Some (p, (c, w'))
    /\ trace w' = trace w
    /\ extends (the_heap w) (the_heap w')
    /\ valid (the_heap w') p
    /\ load (the_heap w') p = z.
Proof.
  destruct z as [z|].
  - eexists _, _. split; [reflexivity|]. cbn [the_heap trace snd alloc].
    split; [reflexivity|]. split; [apply extends_alloc|].
    split; [simpl; rewrite length_app; simpl; lia | apply load_alloc_new].
  - exists None, w. split; [reflexivity|]. split; [reflexivity|].
    split; [apply extends_refl|]. split; [exact I | reflexivity].
Qed.

Lemma newSubject_spec vn sq c w :
  exists s w',
    newSubject vn sq (c, w) = Some (Some s, (c, w'))
    /\ trace w' = trace w
    /\ extends (the_heap w) (the_heap w')
    /\ valid_subject (the_heap w') s
    /\ subject_fields (the_heap w') s = (Some (vn, sq), [Byte.x01]).
Proof.
  destruct (newBig_spec vn c w) as (pv & w1 & Hrun1 & Ht1 & He1 & Hv1 & Hl1).
  destruct (newBig_spec sq c w1) as (ps & w2 & Hrun2 & Ht2 & He2 & Hv2 & Hl2).
  eexists _, w2. split.
  { unfold newSubject. unfold mbind at 1. unfold go_bind at 1. rewrite Hrun1.
    unfold mbind at 1. unfold go_bind at 1. rewrite Hrun2. reflexivity. }
  split; [congruence|]. split; [eapply extends_trans; eassumption|].
  destruct (He2 pv Hv1) as [Hv1' Hl1'].
  unfold valid_subject, subject_fields.
  cbn [Subject_View Subject_Digest View_ViewNumber View_Sequence].
  split; [auto|]. rewrite Hl1', Hl1, Hl2. reflexivity.
Qed.

Lemma newCase_spec expected cvn csq svn ssq c w :
  exists t w',
    newCase expected cvn csq svn ssq (c, w) = Some (t, (c, w'))
    /\ trace w' = trace w
    /\ extends (the_heap w) (the_heap w')
    /\ case_reads (the_heap w') t expected cvn csq svn ssq.
Proof.
  destruct (newSubject_spec cvn csq c w) as (a & w1 & Hrun1 & Ht1 & He1 & Hva & Hfa).
  destruct (newSubject_spec svn ssq c w1) as (b & w2 & Hrun2 & Ht2 & He2 & Hvb & Hfb).
  eexists _, w2. split.
  { unfold newCase. unfold mbind at 1. unfold go_bind at 1. rewrite Hrun1.
    unfold mbind at 1. unfold go_bind at 1. rewrite Hrun2. reflexivity. }
  split; [congruence|]. split; [eapply extends_trans; eassumption|].
  destruct (subject_fields_extends _ _ a He2 Hva) as [Hva' Hfa'].
  split; [reflexivity|]. exists a, b.
  cbn [case_commit case_self]. rewrite Hfa', Hfa. auto 10.
Qed.

Lemma testCases_spec c w :
  exists t0 t1 t2 t3 w',
    testCases (c, w) = Some ([t0; t1; t2; t3], (c, w'))
    /\ trace w' = trace w
    /\ extends (the_heap w) (the_heap w')
    /\ case_reads (the_heap w') t0 None (Some 0) (Some 0) (Some 0) (Some 0)
    /\ case_reads (the_heap w') t1 (Some ErrSubjectNotMatched)
         (Some 0) None (Some 1) (Some 1)
    /\ case_reads (the_heap w') t2 (Some ErrSubjectNotMatched)
         (Some 1) (Some 0) (Some 0) (Some 0)
    /\ case_reads (the_heap w') t3 (Some ErrSubjectNotMatched)
         (Some 0) (Some 1) (Some 0) (Some 0).
Proof.
  destruct (newCase_spec None (Some 0) (Some 0) (Some 0) (Some 0) c w)
    as (t0 & w0 & Hrun0 & Ht0 & He0 & Hc0).
  destruct (newCase_spec (Some ErrSubjectNotMatched) (Some 0) None (Some 1) (Some 1) c w0)
    as (t1 & w1 & Hrun1 & Ht1 & He1 & Hc1).
  destruct (newCase_spec (Some ErrSubjectNotMatched) (Some 1) (Some 0) (Some 0) (Some 0)
              c w1)
    as (t2 & w2 & Hrun2 & Ht2 & He2 & Hc2).
  destruct (newCase_spec (Some ErrSubjectNotMatched) (Some 0) (Some 1) (Some 0) (Some 0)
              c w2)
    as (t3 & w3 & Hrun3 & Ht3 & He3 & Hc3).
  exists t0, t1, t2, t3, w3. split.
  { unfold testCases.
    unfold mbind at 1. unfold go_bind at 1. rewrite Hrun0.
    unfold mbind at 1. unfold go_bind at 1. rewrite Hrun1.
    unfold mbind at 1. unfold go_bind at 1. rewrite Hrun2.
    unfold mbind at 1. unfold go_bind at 1. rewrite Hrun3. reflexivity. }
  split; [congruence|].
  split; [eauto using extends_trans|].
  split; [eauto using case_reads_extends, extends_trans|].
  split; [eauto using case_reads_extends, extends_trans|].
  split; [eauto using case_reads_extends|]. exact Hc3.
Qed.

Lemma runVerifyCase_reader f peer test c w :
  runVerifyCase (readerVerify f) peer test (c, w)
  = Some (match f (the_heap w) (case_commit test) (case_self test) with
          | None => false
          | Some e => bool_decide (Some e <> case_expected test)
          end, (set_subject (case_self test) c, w)).
Proof. reflexivity. Qed.

Lemma runVerifyCases_reader f peer cases : forall i c w,
  exists fs c',
    runVerifyCases (readerVerify f) peer i cases (c, w) = Some (fs, (c', w))
    /\ (fs = [] <->
        Forall (fun t => f (the_heap w) (case_commit t) (case_self t) = None
                         \/ f (the_heap w) (case_commit t) (case_self t)
                            = case_expected t) cases).
Proof.
  induction cases as [|t rest IH]; intros i c w.
  - exists [], c. split; [reflexivity|]. split; [constructor | reflexivity].
  - destruct (IH (S i) (set_subject (case_self t) c) w) as (fs & c' & Hrun & Hiff).
    cbn [runVerifyCases]. unfold mbind at 1. unfold go_bind at 1.
    rewrite runVerifyCase_reader.
    unfold mbind at 1. unfold go_bind at 1. rewrite Hrun.
    unfold mret, go_ret.
    destruct (f (the_heap w) (case_commit t) (case_self t)) as [e|] eqn:Hf.
    + destruct (decide (Some e = case_expected t)) as [Heq|Hne].
      * rewrite bool_decide_eq_false_2 by (intros H; apply H, Heq).
        eexists fs, c'. split; [reflexivity|]. rewrite Hiff. split.
        -- intros H. constructor; [right; simpl; congruence | exact H].
        -- intros H. inversion H; assumption.
      * rewrite bool_decide_eq_true_2 by exact Hne.
        eexists _, c'. split; [reflexivity|]. split; [discriminate|].
        intros H. inversion H as [|? ? [H1|H1] _]; subst; simpl in H1; congruence.
    + eexists fs, c'. split; [reflexivity|]. rewrite Hiff. split.
      * intros H. constructor; [left; exact Hf | exact H].
      * intros H. inversion H; assumption.
Qed.

(** X14. [TestVerifyCommit] run on a verification that only reads never
    panics, and it reports no error exactly when, on each of its four
    cases, the verification returns nil or the expected error: a nil
    result is never compared with the expected one. *)
Theorem TestVerifyCommit_passes_iff f peer c w :
  exists cases w',
    testCases (c, w) = Some (cases, (c, w'))
    /\ (exists fs s, TestVerifyCommit (readerVerify f) peer (c, w) = Some (fs, s))
    /\ ((exists s, TestVerifyCommit (readerVerify f) peer (c, w) = Some ([], s))
        <-> Forall (fun t => f (the_heap w') (case_commit t) (case_self t) = None
                             \/ f (the_heap w') (case_commit t) (case_self t)
                                = case_expected t) cases).
Proof.
  destruct (testCases_spec c w) as (t0 & t1 & t2 & t3 & w' & Hcases & _).
  set (cases := [t0; t1; t2; t3]) in *.
  destruct (runVerifyCases_reader f peer cases 0%nat c w') as (fs & c' & Hrun & Hiff).
  assert (Htest : TestVerifyCommit (readerVerify f) peer (c, w) = Some (fs, (c', w'))).
  { unfold TestVerifyCommit. unfold mbind at 1. unfold go_bind at 1.
    rewrite Hcases. exact Hrun. }
  exists cases, w'. split; [exact Hcases|]. split; [eauto|].
  rewrite <- Hiff, Htest. split.
  - intros (s & [= -> _]). reflexivity.
  - intros ->. eauto.
Qed.

Lemma runVerifyCases_constant_nil peer cases : forall i c w,
  exists c',
    runVerifyCases (fun _ _ => mret None) peer i cases (c, w) = Some ([], (c', w)).
Proof.
  induction cases as [|t rest IH]; intros i c w.
  - exists c. reflexivity.
  - destruct (IH (S i) (set_subject (case_self t) c) w) as (c' & Hrun).
    exists c'. cbn [runVerifyCases]. unfold mbind at 1. unfold go_bind at 1.
    change (runVerifyCase (fun _ _ => mret None) peer t (c, w))
      with (Some (false, (set_subject (case_self t) c, w))).
    unfold mbind at 1. unfold go_bind at 1. rewrite Hrun. reflexivity.
Qed.

(** X15. [TestVerifyCommit] cannot fail a verification that always returns
    nil, although three of its four cases expect [ErrSubjectNotMatched]:
    whatever the core and the store are, it reports no error. *)
Theorem TestVerifyCommit_passes_constant_nil peer c w :
  exists s, TestVerifyCommit (fun _ _ => mret None) peer (c, w) = Some ([], s).
Proof.
  destruct (testCases_spec c w) as (t0 & t1 & t2 & t3 & w' & Hcases & _).
  destruct (runVerifyCases_constant_nil peer [t0; t1; t2; t3] 0%nat c w') as (c' & Hrun).
  exists (c', w'). unfold TestVerifyCommit. unfold mbind at 1. unfold go_bind at 1.
  rewrite Hcases. exact Hrun.
Qed.

Lemma verifyCommit_case h t expected cvn csq svn ssq peer c w :
  the_heap w = h ->
  case_reads h t expected cvn csq svn ssq ->
  verifyCommit (case_commit t) peer (set_subject (case_self t) c, w)
  = Some (if decide ((cvn, csq) = (svn, ssq)) then None else Some ErrSubjectNotMatched,
          (set_subject (case_self t) c, w)).
Proof.
  intros <- (_ & a & b & Ha & Hb & Hfa & Hfb & _).
  rewrite verifyCommit_run. cbn [subject set_subject]. rewrite Ha, Hb.
  destruct (subjectEqual (the_heap w) (Some a) (Some b)) eqn:E.
  - apply subjectEqual_eq in E. rewrite Hfa, Hfb in E.
    rewrite decide_True by congruence. reflexivity.
  - rewrite decide_False; [reflexivity|]. intros Heq.
    assert (subjectEqual (the_heap w) (Some a) (Some b) = true) as E'
      by (apply subjectEqual_eq; rewrite Hfa, Hfb; congruence).
    congruence.
Qed.

Lemma runVerifyCases_expected verify peer w cases : forall i c,
  Forall (fun t => forall c0,
            verify (case_commit t) peer (set_subject (case_self t) c0, w)
            = Some (case_expected t, (set_subject (case_self t) c0, w))) cases ->
  exists c', runVerifyCases verify peer i cases (c, w) = Some ([], (c', w)).
Proof.
  induction cases as [|t rest IH]; intros i c H.
  - exists c. reflexivity.
  - inversion H as [|? ? Ht Hrest]; subst.
    destruct (IH (S i) (set_subject (case_self t) c) Hrest) as (c' & Hrun).
    exists c'. cbn [runVerifyCases]. unfold mbind at 1. unfold go_bind at 1.
    unfold runVerifyCase. unfold mbind at 1. unfold go_bind at 1.
    unfold update at 1. cbn [fst snd].
    unfold mbind at 1. unfold go_bind at 1. rewrite Ht.
    unfold mret at 1. unfold go_ret at 1.
    unfold mbind at 1. unfold go_bind at 1. rewrite Hrun.
    destruct (case_expected t) as [e|]; [|reflexivity].
    rewrite bool_decide_eq_false_2 by (intros Hne; apply Hne; reflexivity).
    reflexivity.
Qed.

(** X16. The comparison of all three fields satisfies [TestVerifyCommit]
    strictly: on each of the four cases, built in whatever store,
    [verifyCommit] returns exactly the expected result, nil on the
    first and [ErrSubjectNotMatched] on the others, the case of the
    different view number included; so the test reports no error. *)
Theorem TestVerifyCommit_deep_equality peer c w :
  exists cases w',
    testCases (c, w) = Some (cases, (c, w'))
    /\ Forall (fun t => forall c0,
         verifyCommit (case_commit t) peer (set_subject (case_self t) c0, w')
         = Some (case_expected t, (set_subject (case_self t) c0, w'))) cases
    /\ exists s, TestVerifyCommit verifyCommit peer (c, w) = Some ([], s).
Proof.
  destruct (testCases_spec c w)
    as (t0 & t1 & t2 & t3 & w' & Hrun & _ & _ & H0 & H1 & H2 & H3).
  assert (HF : Forall (fun t => forall c0,
         verifyCommit (case_commit t) peer (set_subject (case_self t) c0, w')
         = Some (case_expected t, (set_subject (case_self t) c0, w'))) [t0; t1; t2; t3]).
  { repeat constructor; intros c0.
    - rewrite (verifyCommit_case _ _ _ _ _ _ _ peer c0 w' eq_refl H0).
      destruct H0 as [-> _]. reflexivity.
    - rewrite (verifyCommit_case _ _ _ _ _ _ _ peer c0 w' eq_refl H1).
      destruct H1 as [-> _]. reflexivity.
    - rewrite (verifyCommit_case _ _ _ _ _ _ _ peer c0 w' eq_refl H2).
      destruct H2 as [-> _]. reflexivity.
    - rewrite (verifyCommit_case _ _ _ _ _ _ _ peer c0 w' eq_refl H3).
      destruct H3 as [-> _]. reflexivity. }
  exists [t0; t1; t2; t3], w'. split; [exact Hrun|]. split; [exact HF|].
  destruct (runVerifyCases_expected verifyCommit peer w' _ 0%nat c HF) as (c' & Hc').
  exists (c', w'). unfold TestVerifyCommit. unfold mbind at 1. unfold go_bind at 1.
  rewrite Hrun. exact Hc'.
Qed.

(** * [appendValidators] *)

Section AppendValidators.

Variables extraVanity extraSeal : nat.

Lemma foldl_append_addresses (e : bytes) (addrs : list (vec Byte.byte 20)) :
  foldl (fun e addr => e ++ vec_to_list addr) e addrs
  = e ++ concat (map vec_to_list addrs).
Proof.
  revert e; induction addrs as [|a addrs IH]; intros e; simpl.
  - rewrite app_nil_r. reflexivity.
  - rewrite IH, <- app_assoc. reflexivity.
Qed.

Lemma length_concat_addresses (addrs : list (vec Byte.byte 20)) :
  length (concat (map vec_to_list addrs)) = (20 * length addrs)%nat.
Proof.
  induction addrs as [|a addrs IH]; [reflexivity|].
  cbn [map concat]. rewrite length_app, length_vec_to_list, IH. simpl. lia.
Qed.

Lemma appendValidators_closed g addrs :
  appendValidators extraVanity extraSeal (Some g) addrs
  = Some {| Genesis_ExtraData :=
              (take extraVanity (Genesis_ExtraData g)
               ++ replicate (extraVanity - length (Genesis_ExtraData g)) Byte.x00)
              ++ concat (map vec_to_list addrs)
              ++ replicate extraSeal Byte.x00 |}.
Proof.
  unfold appendValidators. rewrite foldl_append_addresses, <- app_assoc.
  do 2 f_equal. f_equal.
  destruct (decide (length (Genesis_ExtraData g) < extraVanity)%nat) as [Hlt|Hge].
  - rewrite bool_decide_eq_true_2 by exact Hlt.
    rewrite take_app_ge by lia. rewrite take_replicate.
    rewrite (take_ge (Genesis_ExtraData g)) by lia.
    do 2 f_equal. lia.
  - rewrite bool_decide_eq_false_2 by exact Hge.
    replace (extraVanity - length (Genesis_ExtraData g))%nat with 0%nat by lia.
    simpl. rewrite app_nil_r. reflexivity.
Qed.

Lemma length_vanity (data : bytes) :
  length (take extraVanity data ++ replicate (extraVanity - length data) Byte.x00)
  = extraVanity.
Proof. rewrite length_app, length_take, length_replicate. lia. Qed.

Lemma address_in_concat (addrs : list (vec Byte.byte 20)) (rest : bytes) : forall i a,
  addrs !! i = Some a ->
  take 20 (drop (20 * i) (concat (map vec_to_list addrs) ++ rest)) = vec_to_list a.
Proof.
  induction addrs as [|b addrs IH]; intros i a Hi; [discriminate|].
  cbn [map concat]. rewrite <- app_assoc. destruct i as [|i].
  - injection Hi as ->. rewrite Nat.mul_0_r, drop_0.
    rewrite take_app_length' by (symmetry; apply length_vec_to_list). reflexivity.
  - replace (20 * S i)%nat with (length (vec_to_list b) + 20 * i)%nat
      by (rewrite length_vec_to_list; lia).
    rewrite drop_app_add. apply IH, Hi.
Qed.

(** X17. [appendValidators] panics on a nil genesis; otherwise the extra data
    it leaves has [extraVanity + 20 * len(addrs) + extraSeal] bytes,
    whatever the length of the extra data was before. *)
Theorem appendValidators_length genesis addrs :
  match appendValidators extraVanity extraSeal genesis addrs with
  | None => genesis = None
  | Some g' =>
      genesis <> None
      /\ length (Genesis_ExtraData g')
         = (extraVanity + 20 * length addrs + extraSeal)%nat
  end.
Proof.
  destruct genesis as [g|]; [|reflexivity].
  rewrite appendValidators_closed. split; [discriminate|].
  cbn [Genesis_ExtraData].
  rewrite length_app, length_vanity, length_app, length_concat_addresses,
    length_replicate. lia.
Qed.

(** X18. The validators can be read back: the [i]-th address given to
    [appendValidators] is the 20 bytes of the extra data at offset
    [extraVanity + 20 * i]. *)
Theorem appendValidators_address_at g addrs i a :
  addrs !! i = Some a ->
  exists g',
    appendValidators extraVanity extraSeal (Some g) addrs = Some g'
    /\ take 20 (drop (extraVanity + 20 * i) (Genesis_ExtraData g')) = vec_to_list a.
Proof.
  intros Hi. eexists. split; [apply appendValidators_closed|].
  cbn [Genesis_ExtraData].
  rewrite <- (length_vanity (Genesis_ExtraData g)) at 1.
  rewrite drop_app_add. apply address_in_concat, Hi.
Qed.

(** X19. The vanity and the seal: the first [extraVanity] bytes of the result
    are those of the extra data given, followed by zeros where it was
    shorter, and the bytes after the last address are [extraSeal]
    zeros. *)
Theorem appendValidators_vanity_and_seal g addrs :
  exists g',
    appendValidators extraVanity extraSeal (Some g) addrs = Some g'
    /\ (forall j, (j < extraVanity)%nat ->
          Genesis_ExtraData g' !! j
          = Some (default Byte.x00 (Genesis_ExtraData g !! j)))
    /\ drop (extraVanity + 20 * length addrs) (Genesis_ExtraData g')
       = replicate extraSeal Byte.x00.
Proof.
  eexists. split; [apply appendValidators_closed|]. cbn [Genesis_ExtraData].
  unfold bytes in *. split.
  - intros j Hj.
    rewrite lookup_app_l by (rewrite length_vanity; exact Hj).
    destruct (decide (j < length (Genesis_ExtraData g))%nat) as [Hlt|Hge].
    + rewrite lookup_app_l by (rewrite length_take; lia).
      rewrite lookup_take_lt by exact Hj.
      destruct (lookup_lt_is_Some_2 _ _ Hlt) as [x ->]. reflexivity.
    + rewrite lookup_app_r by (rewrite length_take; lia).
      rewrite (lookup_ge_None_2 (Genesis_ExtraData g) j) by lia.
      rewrite length_take. apply lookup_replicate_2. lia.
  - rewrite <- (length_vanity (Genesis_ExtraData g)) at 1.
    rewrite drop_app_add.
    rewrite <- (length_concat_addresses addrs).
    rewrite drop_app_length. reflexivity.
Qed.

(** X20. [appendValidators] replaces what an earlier call appended: applied
    to its own result with other addresses, it gives what it gives on
    the original genesis with those addresses, so neither the earlier
    validators nor the earlier seal bytes remain. *)
Theorem appendValidators_overwrites g addrs addrs' :
  exists g1,
    appendValidators extraVanity extraSeal (Some g) addrs = Some g1
    /\ appendValidators extraVanity extraSeal (Some g1) addrs'
       = appendValidators extraVanity extraSeal (Some g) addrs'.
Proof.
  eexists. split; [apply appendValidators_closed|].
  rewrite !appendValidators_closed. cbn [Genesis_ExtraData].
  do 2 f_equal.
  rewrite take_app_length' by (symmetry; apply length_vanity).
  rewrite length_app, length_vanity.
  replace (extraVanity - (extraVanity + _))%nat with 0%nat by lia.
  simpl. rewrite app_nil_r. reflexivity.
Qed.

End AppendValidators.

(** The address read back for a vanity of 32 bytes, a seal of 65 bytes,
    an empty extra data and two validators. *)
Lemma appendValidators_address_at_witness :
  exists g',
    appendValidators 32 65 (Some {| Genesis_ExtraData := [] |})
      [vreplicate 20 Byte.x01; vreplicate 20 Byte.x02] = Some g'
    /\ take 20 (drop (32 + 20 * 1) (Genesis_ExtraData g'))
       = vec_to_list (vreplicate 20 Byte.x02).
Proof.
  apply (appendValidators_address_at 32 65 {| Genesis_ExtraData := [] |}
           [vreplicate 20 Byte.x01; vreplicate 20 Byte.x02] 1 (vreplicate 20 Byte.x02)).
  reflexivity.
Defined.

(** * What [commit] leaves alone *)

(** The core a run of [commit] ends in, field by field. *)
Lemma commit_core admissible c w cur pp :
  current c = Some cur ->
  Log_Preprepare cur = Some pp ->
  exists b1 b2 w',
    commit admissible (c, w)
    = Some (tt,
        (set_backlogs b2
           (set_state StateAcceptRequest
              (set_completed true
                 (set_sequence (Log_Sequence cur)
                    (set_viewNumber (Log_ViewNumber cur)
                       (set_consensusLogs (consensusLogs c ++ [cur])
                          (set_backlogs b1 (set_state StateCommitted c))))))),
         w'))
    /\ the_heap w' = the_heap w.
Proof.
  intros Hcur Hpp.
  destruct (setState_run admissible StateCommitted c w) as (b1 & pre & Hrun1 & _).
  set (c1 := set_backlogs b1 (set_state StateCommitted c)) in *.
  set (w1 := {| the_heap := the_heap w; trace := trace w ++ pre |}) in *.
  set (c2 := set_completed true
               (set_sequence (Log_Sequence cur)
                  (set_viewNumber (Log_ViewNumber cur)
                     (set_consensusLogs (consensusLogs c1 ++ [cur]) c1)))).
  set (w2 := {| the_heap := the_heap w;
                trace := (trace w ++ pre)
                         ++ [EffCommit (Preprepare_Proposal pp) StateCommitted
                               (Backend_Commit (backend c) (Preprepare_Proposal pp))] |}).
  destruct (setState_run admissible StateAcceptRequest c2 w2) as (b2 & evs & Hrun2 & _).
  exists b1, b2. eexists. split.
  - unfold commit. unfold mbind at 1. unfold go_bind at 1. rewrite Hrun1.
    unfold mbind, go_bind, self, deref, update, emit, mret, go_ret.
    cbn [fst snd].
    replace (current c1) with (Some cur) by (symmetry; exact Hcur).
    rewrite Hpp. cbn [fst snd].
    change (state c1) with StateCommitted.
    change (backend c1) with (backend c).
    change (the_heap w1) with (the_heap w).
    change (trace w1) with (trace w ++ pre).
    fold c2. fold w2. rewrite Hrun2. reflexivity.
  - reflexivity.
Qed.

(** X8. [commit] writes six fields of the core and no other: the address,
    [N], [F], the host, the local subject and the current log are after
    it what they were before, and so is every integer of the store; in
    particular the current log is not cleared, nor is [F] recomputed. *)
Theorem commit_keeps_identity admissible c w cur pp :
  current c = Some cur ->
  Log_Preprepare cur = Some pp ->
  exists c' w',
    commit admissible (c, w) = Some (tt, (c', w'))
    /\ address c' = address c
    /\ coreN c' = coreN c
    /\ coreF c' = coreF c
    /\ backend c' = backend c
    /\ subject c' = subject c
    /\ current c' = current c
    /\ the_heap w' = the_heap w.
Proof.
  intros Hcur Hpp.
  destruct (commit_core admissible c w cur pp Hcur Hpp) as (b1 & b2 & w' & Hrun & Hh).
  eexists _, w'. split; [exact Hrun|]. repeat (split; [reflexivity|]). exact Hh.
Qed.

(** The statement on the demo replica. *)
Lemma commit_keeps_identity_witness :
  exists c' w',
    commit demoAdmissible (demoConfig true) = Some (tt, (c', w'))
    /\ address c' = address (demoConfig true).1
    /\ coreN c' = coreN (demoConfig true).1
    /\ coreF c' = coreF (demoConfig true).1
    /\ backend c' = backend (demoConfig true).1
    /\ subject c' = subject (demoConfig true).1
    /\ current c' = current (demoConfig true).1
    /\ the_heap w' = the_heap (demoConfig true).2.
Proof.
  apply (commit_keeps_identity demoAdmissible
           (demoConfig true).1 (demoConfig true).2 demoLog demoPreprepare);
    reflexivity.
Defined.
